(** * Market-regime segmentation of a price series: model and properties

    This development embeds the computational core of [app.py]:

    - [identify_market_phases] (the bull/bear segmentation scan),
    - the derived column [price_pct_change],
    - the row selection applied to the forecasting model's prediction table.

    Prices, thresholds and magnitudes are Python/NumPy floats in the source.
    For the segmentation they are modelled as exact rationals ([Q]): every
    comparison and arithmetic operation of the source is kept, rounding and
    the special values NaN and infinity are not represented.  A division
    whose divisor is zero yields [0] in [Q] (NumPy yields nan or inf there);
    every statement about a magnitude below assumes positive prices, where
    the two agree.  The statements made on this model are about the
    structure of the result and hold however a confirmation test comes
    out.  Where the result of an operation or of a test matters to a
    statement (the percentage-change column, the reversal that ends a
    market, the band in which no market is confirmed), the code is modelled
    in binary64 with the primitive floats.
    Timestamps are integers (seconds since the epoch). *)

From Stdlib Require Import List ZArith QArith Lqa Lia Bool Sorted.
From Stdlib Require PrimFloat.
Import ListNotations.

Set Implicit Arguments.

(** ** Exceptions and the error monad *)

(** The only exception the modelled code can raise by itself is the
    [IndexError] of a positional access that is out of bounds. *)
Inductive PyError : Type :=
| IndexError.

Inductive result (A : Type) : Type :=
| Ok (a : A)
| Err (e : PyError).

Arguments Ok {A} a.
Arguments Err {A} e.

Definition bind {A B : Type} (c : result A) (k : A -> result B) : result B :=
  match c with
  | Ok a => k a
  | Err e => Err e
  end.

Notation "x <- c ;; k" := (bind c (fun x => k))
  (at level 61, c at next level, right associativity).

(** [current_price > peak] and friends: strict comparison on rationals. *)
Definition Qlt_bool (x y : Q) : bool := negb (Qle_bool y x).

(** ** The segmentation scan *)

Module Segmenter.

(** A pandas [Series]: the index (timestamps) paired with the values. *)
Definition Series : Type := list (Z * Q).

(** [series.iloc[i]] for a non-negative position [i]. *)
Definition iloc (series : Series) (i : nat) : result Q :=
  match nth_error series i with
  | Some (_, v) => Ok v
  | None => Err IndexError
  end.

(** [series.index[i]] for a non-negative position [i]. *)
Definition index_at (series : Series) (i : nat) : result Z :=
  match nth_error series i with
  | Some (t, _) => Ok t
  | None => Err IndexError
  end.

(** [series.index[-1]]: the last timestamp. *)
Definition index_last (series : Series) : result Z :=
  match series with
  | [] => Err IndexError
  | _ :: _ => index_at series (length series - 1)
  end.

(** The 7-tuples appended to [bull_markets] and [bear_markets]:
    [(start_idx, end_idx, start_date, end_date, x, y, change)], where
    [(x, y)] is [(trough, peak)] in a bull tuple and [(peak, trough)] in a
    bear tuple. *)
Record PhaseTuple : Type := mkTuple {
  t_start_idx : nat;
  t_end_idx : nat;
  t_start_date : Z;
  t_end_date : Z;
  t_first : Q;
  t_second : Q;
  t_change : Q
}.

(** The local variables of [identify_market_phases]. *)
Record State : Type := mkState {
  bull_markets : list PhaseTuple;
  bear_markets : list PhaseTuple;
  in_bull : bool;
  in_bear : bool;
  start_idx : nat;
  peak : Q;
  trough : Q
}.

Definition bear_tuple (s_idx e_idx : nat) (sd ed : Z) (pk tr : Q) : PhaseTuple :=
  mkTuple s_idx e_idx sd ed pk tr ((tr - pk) / pk).

Definition bull_tuple (s_idx e_idx : nat) (sd ed : Z) (pk tr : Q) : PhaseTuple :=
  mkTuple s_idx e_idx sd ed tr pk ((pk - tr) / tr).

(** The [if in_bear:] block of the bull branch. *)
Definition close_bear (series : Series) (i : nat) (st : State) : result State :=
  if in_bear st then
    sd <- index_at series (start_idx st) ;;
    ed <- index_at series (i - 1) ;;
    Ok (mkState (bull_markets st)
                (bear_markets st ++
                   [bear_tuple (start_idx st) (i - 1) sd ed (peak st) (trough st)])
                (in_bull st) false (start_idx st) (peak st) (trough st))
  else Ok st.

(** The [if in_bull:] block of the bear branch. *)
Definition close_bull (series : Series) (i : nat) (st : State) : result State :=
  if in_bull st then
    sd <- index_at series (start_idx st) ;;
    ed <- index_at series (i - 1) ;;
    Ok (mkState (bull_markets st ++
                   [bull_tuple (start_idx st) (i - 1) sd ed (peak st) (trough st)])
                (bear_markets st)
                false (in_bear st) (start_idx st) (peak st) (trough st))
  else Ok st.

(** The [if ... elif ...] that confirms a bull or a bear market. *)
Definition confirm (series : Series) (threshold : Q) (i : nat)
    (current_price : Q) (st : State) : result State :=
  if negb (in_bull st)
     && Qle_bool (trough st * (1 + threshold)) current_price then
    st' <- close_bear series i st ;;
    Ok (mkState (bull_markets st') (bear_markets st')
                true (in_bear st') i (peak st') current_price)
  else if negb (in_bear st)
          && Qle_bool current_price (peak st * (1 - threshold)) then
    st' <- close_bull series i st ;;
    Ok (mkState (bull_markets st') (bear_markets st')
                (in_bull st') true i current_price (trough st'))
  else Ok st.

(** The [if ... elif ...] under [# Update peak and trough]. *)
Definition update_extrema (current_price : Q) (st : State) : State :=
  if in_bull st && Qlt_bool (peak st) current_price then
    mkState (bull_markets st) (bear_markets st) (in_bull st) (in_bear st)
            (start_idx st) current_price (trough st)
  else if in_bear st && Qlt_bool current_price (trough st) then
    mkState (bull_markets st) (bear_markets st) (in_bull st) (in_bear st)
            (start_idx st) (peak st) current_price
  else st.

(** One iteration of the [for] loop. *)
Definition loop_body (series : Series) (threshold : Q) (i : nat)
    (st : State) : result State :=
  current_price <- iloc series i ;;
  st' <- confirm series threshold i current_price st ;;
  Ok (update_extrema current_price st').

(** [for i in idxs: body]. *)
Fixpoint for_each (body : nat -> State -> result State) (idxs : list nat)
    (st : State) : result State :=
  match idxs with
  | [] => Ok st
  | i :: idxs' => st' <- body i st ;; for_each body idxs' st'
  end.

(** The initialisation and the loop: the state reached just before
    [# Handle the last phase]. *)
Definition scan (series : Series) (threshold : Q) : result State :=
  v0 <- iloc series 0 ;;
  for_each (loop_body series threshold)
           (seq 1 (length series - 1))
           (mkState [] [] false false 0 v0 v0).

(** [# Handle the last phase] and the [return]. *)
Definition handle_last (series : Series) (st : State)
    : result (list PhaseTuple * list PhaseTuple) :=
  if in_bull st then
    sd <- index_at series (start_idx st) ;;
    ed <- index_last series ;;
    Ok (bull_markets st ++
          [bull_tuple (start_idx st) (length series - 1) sd ed (peak st) (trough st)],
        bear_markets st)
  else if in_bear st then
    sd <- index_at series (start_idx st) ;;
    ed <- index_last series ;;
    Ok (bull_markets st,
        bear_markets st ++
          [bear_tuple (start_idx st) (length series - 1) sd ed (peak st) (trough st)])
  else Ok (bull_markets st, bear_markets st).

Definition identify_market_phases (series : Series) (threshold : Q)
    : result (list PhaseTuple * list PhaseTuple) :=
  st <- scan series threshold ;;
  handle_last series st.

(** *** The phase sequence: both outputs merged by position

    The function returns the bull tuples and the bear tuples as two lists.
    Read as one sequence of phases, they are merged by start position. *)

Inductive Kind : Type := Bull | Bear.

Definition MarketPhase : Type := (Kind * PhaseTuple)%type.

Definition kind (p : MarketPhase) : Kind := fst p.
Definition start_index (p : MarketPhase) : nat := t_start_idx (snd p).
Definition end_index (p : MarketPhase) : nat := t_end_idx (snd p).
Definition start_time (p : MarketPhase) : Z := t_start_date (snd p).
Definition end_time (p : MarketPhase) : Z := t_end_date (snd p).
Definition magnitude (p : MarketPhase) : Q := t_change (snd p).

Definition reference_low (p : MarketPhase) : Q :=
  match kind p with
  | Bull => t_first (snd p)
  | Bear => t_second (snd p)
  end.

Definition reference_high (p : MarketPhase) : Q :=
  match kind p with
  | Bull => t_second (snd p)
  | Bear => t_first (snd p)
  end.

(** The extremum a phase starts from: the trough of a bull phase, the peak
    of a bear phase (the fifth component of either tuple). *)
Definition originating_extremum (p : MarketPhase) : Q := t_first (snd p).

(** The extremum a phase runs to: the peak of a bull phase, the trough of a
    bear phase (the sixth component of either tuple). *)
Definition terminating_extremum (p : MarketPhase) : Q := t_second (snd p).

(** Merge of the two outputs by start position (bull first on a tie). *)
Fixpoint merge_phases (bulls bears : list PhaseTuple) : list MarketPhase :=
  match bulls with
  | [] => map (pair Bear) bears
  | b :: bulls' =>
      (fix merge_bears (bears : list PhaseTuple) : list MarketPhase :=
         match bears with
         | [] => map (pair Bull) (b :: bulls')
         | r :: bears' =>
             if (t_start_idx b <=? t_start_idx r)%nat
             then (Bull, b) :: merge_phases bulls' bears
             else (Bear, r) :: merge_bears bears'
         end) bears
  end.

Definition segment (series : Series) (threshold : Q)
    : result (list MarketPhase) :=
  out <- identify_market_phases series threshold ;;
  Ok (merge_phases (fst out) (snd out)).

End Segmenter.

(** ** The derived percentage-change column *)

Module Derived.
Import PrimFloat.

(** A [float64] column; a missing cell is NaN. *)
Definition Column : Type := list float.

(** pandas' [Series.pct_change()] with its default period of one row:
    [data / data.shift(1) - 1], so the first cell is NaN and every later
    cell is [x[t] / x[t-1] - 1], each operation rounded to binary64.
    Missing prices, which pandas may first fill forward, are left to the
    callers' premise that there are none. *)
Fixpoint pct_change_from (prev : float) (xs : list float) : Column :=
  match xs with
  | [] => []
  | x :: xs' => (x / prev - 1)%float :: pct_change_from x xs'
  end.

Definition pct_change (xs : list float) : Column :=
  match xs with
  | [] => []
  | x :: xs' => nan :: pct_change_from x xs'
  end.

(** [column * k], cell by cell. *)
Definition times (c : Column) (k : float) : Column :=
  map (fun x => (x * k)%float) c.

(** [df['price_pct_change'] = df['petrol_price'].pct_change() * 100] *)
Definition price_pct_change (petrol_price : list float) : Column :=
  times (pct_change petrol_price) 100%float.

End Derived.

(** ** The forecast table *)

Module Forecast.

(** A row of the prediction table, restricted to the selected columns
    [['ds', 'yhat', 'yhat_lower', 'yhat_upper']]. *)
Record Row : Type := mkRow {
  ds : Z;
  yhat : Q;
  yhat_lower : Q;
  yhat_upper : Q
}.

(** [pd.to_datetime("2025-05-01")], in seconds since the epoch. *)
Definition start_dt : Z := 1746057600.

(** [timedelta(days=1)] *)
Definition one_day : Z := 86400.

(** The rows kept by
    [forecast.loc[(forecast.index >= start_dt) & (forecast.index <= next_dt)]],
    where [predicted] is the table returned by [model.predict(future_dates)]
    and [now] the value of [datetime.now()]. *)
Definition forecast (predicted : list Row) (now : Z) : list Row :=
  let next_dt := (now + one_day)%Z in
  filter (fun r => (start_dt <=? ds r)%Z && (ds r <=? next_dt)%Z) predicted.

(** [forecast['yhat'].iloc[-1]] *)
Definition next_day_price (predicted : list Row) (now : Z) : result Q :=
  match rev (forecast predicted now) with
  | [] => Err IndexError
  | r :: _ => Ok (yhat r)
  end.

(** [lowerBound <= pointEstimate <= upperBound] *)
Definition bounds_ordered (r : Row) : Prop :=
  yhat_lower r <= yhat r /\ yhat r <= yhat_upper r.

End Forecast.

(** ** Specification vocabulary for the segmentation *)

Module SegmenterSpec.
Import Segmenter.

(** Total accessors, used for positions known to be in range. *)
Definition value_at (s : Series) (i : nat) : Q := nth i (map snd s) 0.
Definition time_at (s : Series) (i : nat) : Z := nth i (map fst s) 0%Z.

(** [is_kind k p]: the phase [p] is of kind [k]. *)
Definition is_kind (k : Kind) (p : MarketPhase) : bool :=
  match k, kind p with
  | Bull, Bull | Bear, Bear => true
  | _, _ => false
  end.

(** The tuples of kind [k] of an emission log (the phases in the order in
    which the scan emits them), in order. *)
Definition tuples_of (k : Kind) (log : list MarketPhase) : list PhaseTuple :=
  map snd (filter (is_kind k) log).

(** What links a phase to the next one emitted. *)
Definition linked (p q : MarketPhase) : Prop :=
  kind p <> kind q /\
  (start_index p <= end_index p)%nat /\
  S (end_index p) = start_index q.

(** What holds of every emitted phase. *)
Record phase_ok (s : Series) (p : MarketPhase) : Prop := mk_phase_ok {
  ok_range : (start_index p <= end_index p < length s)%nat;
  ok_start_time : start_time p = time_at s (start_index p);
  ok_end_time : end_time p = time_at s (end_index p);
  ok_origin : originating_extremum p = value_at s (start_index p);
  ok_terminus : exists j, (j <= end_index p)%nat /\
                          terminating_extremum p = value_at s j;
  ok_order : match kind p with
             | Bull => originating_extremum p <= terminating_extremum p
             | Bear => terminating_extremum p <= originating_extremum p
             end;
  ok_bound : forall j, (start_index p <= j <= end_index p)%nat ->
             match kind p with
             | Bull => value_at s j <= terminating_extremum p
             | Bear => terminating_extremum p <= value_at s j
             end;
  ok_change : magnitude p =
              (terminating_extremum p - originating_extremum p)
              / originating_extremum p
}.

(** The phase that would be emitted if the open phase were closed after
    [n] points have been consumed. *)
Definition pending (s : Series) (n : nat) (st : State) : option MarketPhase :=
  if in_bull st then
    Some (Bull, bull_tuple (start_idx st) (Nat.pred n)
                  (time_at s (start_idx st)) (time_at s (Nat.pred n))
                  (peak st) (trough st))
  else if in_bear st then
    Some (Bear, bear_tuple (start_idx st) (Nat.pred n)
                  (time_at s (start_idx st)) (time_at s (Nat.pred n))
                  (peak st) (trough st))
  else None.

(** After [n] points: the two outputs are the bull and bear parts of one
    emission log of well-formed phases; the open phase, if any, is well
    formed and linked to the last emitted one; before the first
    confirmation both extrema still hold the first value. *)
Definition Inv (s : Series) (n : nat) (st : State) : Prop :=
  exists log : list MarketPhase,
    bull_markets st = tuples_of Bull log /\
    bear_markets st = tuples_of Bear log /\
    Forall (phase_ok s) log /\
    (in_bull st = true -> in_bear st = false) /\
    match pending s n st with
    | Some p => phase_ok s p /\ Sorted linked (log ++ [p])
    | None => log = [] /\ peak st = value_at s 0 /\ trough st = value_at s 0
    end.

End SegmenterSpec.

(** ** Inputs used in the worked cases *)

Import Segmenter SegmenterSpec Derived Forecast.

(** The series of the worked scenario, with positions as timestamps. *)
Definition scenario_series : Series :=
  [(0%Z, 100); (1%Z, 100); (2%Z, 121); (3%Z, 121); (4%Z, 95); (5%Z, 95)].

(** The outcome the scenario is described with: a bull phase over
    positions 0 to 3 from 100 to 121, then a bear phase over positions 4
    to 5 from 121 to 95. *)
Definition scenario_as_described (phases : list MarketPhase) : Prop :=
  exists b r : MarketPhase,
    phases = [b; r] /\
    kind b = Bull /\ start_index b = 0%nat /\ end_index b = 3%nat /\
    reference_low b == 100 /\ reference_high b == 121 /\
    magnitude b == 21 # 100 /\
    kind r = Bear /\ start_index r = 4%nat /\ end_index r = 5%nat /\
    reference_high r == 121 /\ reference_low r == 95 /\
    magnitude r == (95 - 121) / 121.

(** A series on which a bull phase is confirmed below the peak kept from
    the bear phase before it. *)
Definition stale_peak_series : Series :=
  [(0%Z, 100); (1%Z, 70); (2%Z, 50); (3%Z, 65); (4%Z, 65)].

(** A two-point series without any move. *)
Definition flat_series : Series := [(0%Z, 100); (1%Z, 100)].

(** A prediction table with one row, dated [start_dt], whose lower bound
    is above its upper bound. *)
Definition crossed_prediction : list Row := [mkRow start_dt 50 60 40].

(** ** The headline metrics *)

Module Metrics.

(** [column.iloc[-k]] for [k >= 1]: the [k]-th cell from the end. *)
Definition iloc_back (A : Type) (column : list A) (k : nat) : result A :=
  if (1 <=? k)%nat && (k <=? length column)%nat then
    match nth_error column (length column - k) with
    | Some x => Ok x
    | None => Err IndexError
    end
  else Err IndexError.

(** The day-over-day change shown as [%DoD]:
    [current_price = df['petrol_price'].iloc[-1]],
    [prev_price = df['petrol_price'].iloc[-2]],
    [pct_change = (current_price - prev_price) / prev_price * 100]. *)
Definition pct_change (petrol_price : list Q) : result Q :=
  current_price <- iloc_back petrol_price 1 ;;
  prev_price <- iloc_back petrol_price 2 ;;
  Ok ((current_price - prev_price) / prev_price * 100).

End Metrics.

(** ** The statistics of an event period *)

Module EventWindow.

(** [df.loc[(df.index >= start_date) & (df.index <= end_date)]], on the
    frame reduced to its index and its [petrol_price] column. *)
Definition event_df (df : Series) (start_date end_date : Z) : Series :=
  filter (fun row => (start_date <=? fst row)%Z && (fst row <=? end_date)%Z)
         df.

(** The variation over the period:
    [start_price = event_df['petrol_price'].iloc[0]],
    [end_price = event_df['petrol_price'].iloc[-1]],
    [price_change = end_price - start_price],
    [pct_change = (price_change / start_price) * 100];
    the result lists the four values in this order. *)
Definition period_change (df : Series) (start_date end_date : Z)
    : result (Q * Q * Q * Q) :=
  let event_df := event_df df start_date end_date in
  start_price <- iloc event_df 0 ;;
  end_price <- Metrics.iloc_back (map snd event_df) 1 ;;
  let price_change := end_price - start_price in
  let pct_change := (price_change / start_price) * 100 in
  Ok (start_price, end_price, price_change, pct_change).

End EventWindow.

(** ** The table of forecast rows on display *)

Module ForecastTable.

(** The calendar day of a timestamp, as printed by [strftime('%Y-%m-%d')]
    and as compared by a slice whose bound is such a string. *)
Definition day_of (t : Z) : Z := (t / one_day)%Z.

(** [sort_index()]: ascending by [ds]; rows with the same [ds] keep their
    order. *)
Fixpoint insert_row (row : Z * Q) (rows : list (Z * Q)) : list (Z * Q) :=
  match rows with
  | [] => [row]
  | r :: rows' =>
      if (fst row <=? fst r)%Z then row :: r :: rows'
      else r :: insert_row row rows'
  end.

Definition sort_index (rows : list (Z * Q)) : list (Z * Q) :=
  fold_right insert_row [] rows.

(** [frame[:future_dt]] on a sorted index, [future_dt] being a day: the
    rows up to the end of that day. *)
Definition slice_to_day (rows : list (Z * Q)) (future_dt : Z)
    : list (Z * Q) :=
  filter (fun r => (day_of (fst r) <=? future_dt)%Z) rows.

(** [frame.tail(n)]: the last [n] rows. *)
Definition tail (A : Type) (rows : list A) (n : nat) : list A :=
  skipn (length rows - n) rows.

(** [forecast[['ds', 'yhat']].set_index("ds").sort_index()[:f"{future_dt}"].tail(days)],
    with [future_dt] the day of [datetime.now() + timedelta(days=days)] and
    [forecast] the table kept by [Forecast.forecast]. *)
Definition df_to_display (predicted : list Row) (now : Z) (days : nat)
    : list (Z * Q) :=
  let future_dt := day_of (now + Z.of_nat days * one_day) in
  tail (slice_to_day
          (sort_index (map (fun r => (ds r, yhat r)) (forecast predicted now)))
          future_dt)
       days.

End ForecastTable.

(** ** The events shown on the price chart *)

Module Events.

(** The test that decides whether an event is drawn, on the dates of the
    frame:
    [event_date in df.index
     or (event_date >= df.index[0] and event_date <= df.index[-1])]. *)
Definition event_in_range (index : list Z) (event_date : Z) : result bool :=
  if existsb (Z.eqb event_date) index then Ok true
  else
    first <- match nth_error index 0 with
             | Some t => Ok t
             | None => Err IndexError
             end ;;
    if (first <=? event_date)%Z then
      last <- Metrics.iloc_back index 1 ;;
      Ok (event_date <=? last)%Z
    else Ok false.

End Events.

(** ** The segmentation scan in binary64

    The same function, [identify_market_phases], with the prices, the
    threshold and every operation and comparison on them in binary64, as
    Python and NumPy evaluate them.  It serves the statements that depend
    on how a confirmation test comes out at its boundary. *)

Module FloatSegmenter.
Import PrimFloat.

(** A pandas [Series] of dtype [float64]: the index (timestamps) paired
    with the values. *)
Definition Series : Type := list (Z * float).

(** [series.iloc[i]] for a non-negative position [i]. *)
Definition iloc (series : Series) (i : nat) : result float :=
  match nth_error series i with
  | Some (_, v) => Ok v
  | None => Err IndexError
  end.

(** [series.index[i]] for a non-negative position [i]. *)
Definition index_at (series : Series) (i : nat) : result Z :=
  match nth_error series i with
  | Some (t, _) => Ok t
  | None => Err IndexError
  end.

(** [series.index[-1]]: the last timestamp. *)
Definition index_last (series : Series) : result Z :=
  match series with
  | [] => Err IndexError
  | _ :: _ => index_at series (length series - 1)
  end.

(** The 7-tuples appended to [bull_markets] and [bear_markets]:
    [(start_idx, end_idx, start_date, end_date, x, y, change)], where
    [(x, y)] is [(trough, peak)] in a bull tuple and [(peak, trough)] in a
    bear tuple. *)
Record PhaseTuple : Type := mkTuple {
  t_start_idx : nat;
  t_end_idx : nat;
  t_start_date : Z;
  t_end_date : Z;
  t_first : float;
  t_second : float;
  t_change : float
}.

(** The local variables of [identify_market_phases]. *)
Record State : Type := mkState {
  bull_markets : list PhaseTuple;
  bear_markets : list PhaseTuple;
  in_bull : bool;
  in_bear : bool;
  start_idx : nat;
  peak : float;
  trough : float
}.

Definition bear_tuple (s_idx e_idx : nat) (sd ed : Z) (pk tr : float)
    : PhaseTuple :=
  mkTuple s_idx e_idx sd ed pk tr ((tr - pk) / pk)%float.

Definition bull_tuple (s_idx e_idx : nat) (sd ed : Z) (pk tr : float)
    : PhaseTuple :=
  mkTuple s_idx e_idx sd ed tr pk ((pk - tr) / tr)%float.

(** The [if in_bear:] block of the bull branch. *)
Definition close_bear (series : Series) (i : nat) (st : State) : result State :=
  if in_bear st then
    sd <- index_at series (start_idx st) ;;
    ed <- index_at series (i - 1) ;;
    Ok (mkState (bull_markets st)
                (bear_markets st ++
                   [bear_tuple (start_idx st) (i - 1) sd ed (peak st) (trough st)])
                (in_bull st) false (start_idx st) (peak st) (trough st))
  else Ok st.

(** The [if in_bull:] block of the bear branch. *)
Definition close_bull (series : Series) (i : nat) (st : State) : result State :=
  if in_bull st then
    sd <- index_at series (start_idx st) ;;
    ed <- index_at series (i - 1) ;;
    Ok (mkState (bull_markets st ++
                   [bull_tuple (start_idx st) (i - 1) sd ed (peak st) (trough st)])
                (bear_markets st)
                false (in_bear st) (start_idx st) (peak st) (trough st))
  else Ok st.

(** The test of [# Check for bull market]:
    [current_price >= trough * (1 + threshold)]. *)
Definition bull_test (threshold trough current_price : float) : bool :=
  (trough * (1 + threshold) <=? current_price)%float.

(** The test of [# Check for bear market]:
    [current_price <= peak * (1 - threshold)]. *)
Definition bear_test (threshold peak current_price : float) : bool :=
  (current_price <=? peak * (1 - threshold))%float.

(** The [if ... elif ...] that confirms a bull or a bear market. *)
Definition confirm (series : Series) (threshold : float) (i : nat)
    (current_price : float) (st : State) : result State :=
  if negb (in_bull st) && bull_test threshold (trough st) current_price then
    st' <- close_bear series i st ;;
    Ok (mkState (bull_markets st') (bear_markets st')
                true (in_bear st') i (peak st') current_price)
  else if negb (in_bear st) && bear_test threshold (peak st) current_price then
    st' <- close_bull series i st ;;
    Ok (mkState (bull_markets st') (bear_markets st')
                (in_bull st') true i current_price (trough st'))
  else Ok st.

(** The [if ... elif ...] under [# Update peak and trough]. *)
Definition update_extrema (current_price : float) (st : State) : State :=
  if in_bull st && (peak st <? current_price)%float then
    mkState (bull_markets st) (bear_markets st) (in_bull st) (in_bear st)
            (start_idx st) current_price (trough st)
  else if in_bear st && (current_price <? trough st)%float then
    mkState (bull_markets st) (bear_markets st) (in_bull st) (in_bear st)
            (start_idx st) (peak st) current_price
  else st.

(** One iteration of the [for] loop. *)
Definition loop_body (series : Series) (threshold : float) (i : nat)
    (st : State) : result State :=
  current_price <- iloc series i ;;
  st' <- confirm series threshold i current_price st ;;
  Ok (update_extrema current_price st').

(** [for i in idxs: body]. *)
Fixpoint for_each (body : nat -> State -> result State) (idxs : list nat)
    (st : State) : result State :=
  match idxs with
  | [] => Ok st
  | i :: idxs' => st' <- body i st ;; for_each body idxs' st'
  end.

(** The initialisation and the loop. *)
Definition scan (series : Series) (threshold : float) : result State :=
  v0 <- iloc series 0 ;;
  for_each (loop_body series threshold)
           (seq 1 (length series - 1))
           (mkState [] [] false false 0 v0 v0).

(** [# Handle the last phase] and the [return]. *)
Definition handle_last (series : Series) (st : State)
    : result (list PhaseTuple * list PhaseTuple) :=
  if in_bull st then
    sd <- index_at series (start_idx st) ;;
    ed <- index_last series ;;
    Ok (bull_markets st ++
          [bull_tuple (start_idx st) (length series - 1) sd ed (peak st) (trough st)],
        bear_markets st)
  else if in_bear st then
    sd <- index_at series (start_idx st) ;;
    ed <- index_last series ;;
    Ok (bull_markets st,
        bear_markets st ++
          [bear_tuple (start_idx st) (length series - 1) sd ed (peak st) (trough st)])
  else Ok (bull_markets st, bear_markets st).

Definition identify_market_phases (series : Series) (threshold : float)
    : result (list PhaseTuple * list PhaseTuple) :=
  st <- scan series threshold ;;
  handle_last series st.

End FloatSegmenter.

(** ** Specification vocabulary for the scan in binary64 *)

Module FloatSegmenterSpec.
Import PrimFloat FloatSegmenter.

(** The bull tuple [t] is followed by a reversal: the value right after
    its end passes the bear test against its peak, and a bear market
    opens there, at that value; the bear market is either in the list
    already or still open. *)
Definition bull_reversed (s : Series) (th : float) (st : State)
    (t : PhaseTuple) : Prop :=
  exists v,
    iloc s (S (t_end_idx t)) = Ok v /\
    bear_test th (t_second t) v = true /\
    ((exists r, In r (bear_markets st) /\
                t_start_idx r = S (t_end_idx t) /\ t_first r = v) \/
     (in_bear st = true /\ start_idx st = S (t_end_idx t) /\ peak st = v)).

(** The same for a bear tuple, with the bull test against its trough. *)
Definition bear_reversed (s : Series) (th : float) (st : State)
    (t : PhaseTuple) : Prop :=
  exists v,
    iloc s (S (t_end_idx t)) = Ok v /\
    bull_test th (t_second t) v = true /\
    ((exists b, In b (bull_markets st) /\
                t_start_idx b = S (t_end_idx t) /\ t_first b = v) \/
     (in_bull st = true /\ start_idx st = S (t_end_idx t) /\ trough st = v)).

(** After [n] points of a series whose first value is [v0]. *)
Record Inv (s : Series) (th v0 : float) (n : nat) (st : State) : Prop :=
  mk_Inv {
  inv_exclusive : in_bull st = true -> in_bear st = false;
  inv_start : in_bull st = true \/ in_bear st = true ->
              (1 <= start_idx st < n)%nat;
  inv_none : in_bull st = false -> in_bear st = false ->
             bull_markets st = [] /\ bear_markets st = [] /\
             peak st = v0 /\ trough st = v0;
  inv_quiet : (in_bull st = false /\ in_bear st = false) <->
              (forall i v, (1 <= i < n)%nat -> iloc s i = Ok v ->
                           bull_test th v0 v = false /\
                           bear_test th v0 v = false);
  inv_bulls : Forall (bull_reversed s th st) (bull_markets st);
  inv_bears : Forall (bear_reversed s th st) (bear_markets st)
}.

(** The Python literals [0.2] and [0.3]: the nearest binary64 values. *)
Definition threshold_02 : float := 0x1.999999999999ap-3%float.
Definition threshold_03 : float := 0x1.3333333333333p-2%float.

(** A series whose last value is exactly the binary64 product
    [3 * (1 + 0.2)], and the markets returned for it with the threshold
    0.2. *)
Definition boundary_series : Series :=
  [(0%Z, 5); (1%Z, 3); (2%Z, 3 * (1 + threshold_02))]%float.

Definition boundary_markets : list PhaseTuple * list PhaseTuple :=
  Eval vm_compute in
    match identify_market_phases boundary_series threshold_02 with
    | Ok out => out
    | Err _ => ([], [])
    end.

End FloatSegmenterSpec.

(** ** Further inputs *)

(** The phases of [stale_peak_series] for the threshold 0.2. *)
Definition stale_peak_phases : list MarketPhase :=
  [(Bear, mkTuple 1 2 1 2 70 50 ((50 - 70) / 70));
   (Bull, mkTuple 3 4 3 4 65 70 ((70 - 65) / 65))].

(** ** Auxiliary facts *)

Lemma Qle_bool_false (x y : Q) : Qle_bool x y = false -> y < x.
Proof.
  intros H. apply Qnot_le_lt. intros Hle.
  apply Qle_bool_iff in Hle. congruence.
Qed.

Lemma Qlt_bool_true (x y : Q) : Qlt_bool x y = true -> x < y.
Proof.
  unfold Qlt_bool. intros H. apply negb_true_iff in H.
  now apply Qle_bool_false.
Qed.

Lemma Qlt_bool_false (x y : Q) : Qlt_bool x y = false -> y <= x.
Proof.
  unfold Qlt_bool. intros H. apply negb_false_iff in H.
  now apply Qle_bool_iff.
Qed.

(** Adjacent elements of a list, and what [Sorted] says about them. *)
Section Adjacent.
Variable A : Type.
Variable R : A -> A -> Prop.

Lemma Sorted_snoc (l : list A) (a b : A) :
  Sorted R (l ++ [a]) -> R a b -> Sorted R ((l ++ [a]) ++ [b]).
Proof.
  induction l as [|x l IH]; cbn; intros Hs Hab.
  - repeat constructor. exact Hab.
  - inversion Hs as [|? ? Hs' Hhd]; subst.
    constructor; [now apply IH|].
    destruct l; cbn in *; inversion Hhd; subst; now constructor.
Qed.

Lemma Sorted_replace_last (l : list A) (a b : A) :
  (forall x, R x a -> R x b) ->
  Sorted R (l ++ [a]) -> Sorted R (l ++ [b]).
Proof.
  intros Hab. induction l as [|x l IH]; cbn; intros Hs.
  - repeat constructor.
  - inversion Hs as [|? ? Hs' Hhd]; subst.
    constructor; [now apply IH|].
    destruct l; cbn in *; inversion Hhd; subst; constructor; auto.
Qed.

Lemma Sorted_prefix (l : list A) (a : A) :
  Sorted R (l ++ [a]) -> Sorted R l.
Proof.
  induction l as [|x l IH]; cbn; intros Hs; [constructor|].
  inversion Hs as [|? ? Hs' Hhd]; subst.
  constructor; [now apply IH|].
  destruct l; cbn in *; [constructor|].
  inversion Hhd; subst; now constructor.
Qed.

Lemma Sorted_adjacent (l : list A) (i : nat) (a b : A) :
  Sorted R l -> nth_error l i = Some a -> nth_error l (S i) = Some b ->
  R a b.
Proof.
  intros Hs. revert i. induction Hs as [|x l Hs IH Hhd]; intros i Ha Hb.
  - destruct i; discriminate.
  - destruct i as [|i]; cbn in Ha, Hb.
    + injection Ha as ->. destruct l; [discriminate|].
      injection Hb as ->. now inversion Hhd.
    + eapply IH; eassumption.
Qed.
End Adjacent.

Module SegmenterFacts.

Lemma iloc_in_range (s : Series) (i : nat) :
  (i < length s)%nat -> iloc s i = Ok (value_at s i).
Proof.
  unfold iloc, value_at. revert i.
  induction s as [|[t v] s IH]; intros [|i] Hi; cbn in *; try lia; auto.
  apply IH. lia.
Qed.

Lemma index_at_in_range (s : Series) (i : nat) :
  (i < length s)%nat -> index_at s i = Ok (time_at s i).
Proof.
  unfold index_at, time_at. revert i.
  induction s as [|[t v] s IH]; intros [|i] Hi; cbn in *; try lia; auto.
  apply IH. lia.
Qed.

Lemma index_last_nonempty (s : Series) :
  s <> [] -> index_last s = Ok (time_at s (length s - 1)).
Proof.
  destruct s as [|x s]; [congruence|]. intros _.
  unfold index_last. apply index_at_in_range. cbn. lia.
Qed.

Lemma value_at_In (s : Series) (i : nat) :
  (i < length s)%nat -> In (value_at s i) (map snd s).
Proof.
  intros Hi. unfold value_at. apply nth_In. now rewrite length_map.
Qed.

(** *** The emission log *)

Lemma tuples_of_app (k : Kind) (l1 l2 : list MarketPhase) :
  tuples_of k (l1 ++ l2) = tuples_of k l1 ++ tuples_of k l2.
Proof. unfold tuples_of. now rewrite filter_app, map_app. Qed.

Lemma tuples_of_In (k : Kind) (log : list MarketPhase) (t : PhaseTuple) :
  In t (tuples_of k log) -> In (k, t) log.
Proof.
  unfold tuples_of. intros H. apply in_map_iff in H as ([k' t'] & <- & H).
  apply filter_In in H as [H Hk].
  destruct k, k'; cbn in *; try discriminate; assumption.
Qed.

Lemma tuples_of_none_Bear (log : list MarketPhase) :
  tuples_of Bear log = [] -> log = map (pair Bull) (tuples_of Bull log).
Proof.
  induction log as [|[[] t] log IH]; cbn; intros H; auto; try discriminate.
  f_equal. now apply IH.
Qed.

Lemma tuples_of_none_Bull (log : list MarketPhase) :
  tuples_of Bull log = [] -> log = map (pair Bear) (tuples_of Bear log).
Proof.
  induction log as [|[[] t] log IH]; cbn; intros H; auto; try discriminate.
  f_equal. now apply IH.
Qed.

Lemma linked_later (p : MarketPhase) (log : list MarketPhase) :
  Sorted linked (p :: log) ->
  Forall (fun q => (end_index p < start_index q)%nat) log.
Proof.
  revert p. induction log as [|q log IH]; intros p Hs; constructor.
  - inversion Hs as [|? ? _ Hhd]; subst. inversion Hhd as [|? ? Hl]; subst.
    destruct Hl as (_ & _ & Hl). lia.
  - inversion Hs as [|? ? Hs' Hhd]; subst. inversion Hhd as [|? ? Hl]; subst.
    destruct Hl as (_ & Hpq & Hl).
    specialize (IH q Hs'). rewrite Forall_forall in *.
    intros r Hr. specialize (IH r Hr).
    assert (start_index q <= end_index q)%nat; [|lia].
    inversion Hs' as [|? ? _ Hhd']; subst.
    destruct log; [contradiction|].
    inversion Hhd' as [|? ? (_ & Hq & _)]; subst. exact Hq.
Qed.

(** Merging the two outputs recovers the emission order. *)
Lemma merge_phases_log (log : list MarketPhase) :
  Sorted linked log ->
  merge_phases (tuples_of Bull log) (tuples_of Bear log) = log.
Proof.
  induction log as [|[k t] log IH]; intros Hs; [reflexivity|].
  pose proof (linked_later Hs) as Hlater.
  assert (Hs' : Sorted linked log) by now inversion Hs.
  specialize (IH Hs'). rewrite Forall_forall in Hlater.
  destruct k.
  - change (tuples_of Bull ((Bull, t) :: log)) with (t :: tuples_of Bull log).
    change (tuples_of Bear ((Bull, t) :: log)) with (tuples_of Bear log).
    destruct (tuples_of Bear log) as [|r rs] eqn:Er.
    + cbn. f_equal. symmetry. now apply tuples_of_none_Bear.
    + assert (Hin : In (Bear, r) log).
      { apply tuples_of_In. rewrite Er. now left. }
      pose proof (Hlater _ Hin) as Hlt.
      unfold start_index, end_index in Hlt. cbn in Hlt.
      assert (Hst : (t_start_idx t <= t_start_idx r)%nat).
      { inversion Hs as [|? ? _ Hhd]; subst.
        destruct log as [|q log]; [contradiction|].
        inversion Hhd as [|? ? (_ & Hq & _)]; subst.
        unfold start_index, end_index in Hq. cbn in Hq. lia. }
      apply Nat.leb_le in Hst.
      cbn. rewrite Hst. now rewrite IH.
  - change (tuples_of Bear ((Bear, t) :: log)) with (t :: tuples_of Bear log).
    change (tuples_of Bull ((Bear, t) :: log)) with (tuples_of Bull log).
    destruct (tuples_of Bull log) as [|b bs] eqn:Eb.
    + cbn. f_equal. symmetry. now apply tuples_of_none_Bull.
    + assert (Hin : In (Bull, b) log).
      { apply tuples_of_In. rewrite Eb. now left. }
      pose proof (Hlater _ Hin) as Hlt.
      unfold start_index, end_index in Hlt. cbn in Hlt.
      assert (Hst : (t_start_idx b <=? t_start_idx t)%nat = false).
      { apply Nat.leb_gt.
        inversion Hs as [|? ? _ Hhd]; subst.
        destruct log as [|q log]; [contradiction|].
        inversion Hhd as [|? ? (_ & Hq & _)]; subst.
        unfold start_index, end_index in Hq. cbn in Hq. lia. }
      cbn. rewrite Hst. apply (f_equal (cons (Bear, t))). exact IH.
Qed.

(** *** What holds of every emitted phase *)

(** A phase that starts at position [i] with value [v] and running
    extremum [e]. *)
Lemma phase_ok_fresh (s : Series) (k : Kind) (i : nat) (v e : Q) :
  (i < length s)%nat ->
  v = value_at s i ->
  (exists j, (j <= i)%nat /\ e = value_at s j) ->
  match k with Bull => v <= e | Bear => e <= v end ->
  phase_ok s (k, mkTuple i i (time_at s i) (time_at s i) v e ((e - v) / v)).
Proof.
  intros Hi Hv He Hord. constructor; cbn; auto; try lia.
  intros j Hj. assert (j = i) as -> by lia. rewrite <- Hv.
  destruct k; exact Hord.
Qed.

(** A phase that is open at position [i - 1] stays well formed when the
    point at position [i] is added to it. *)
Lemma phase_ok_extend (s : Series) (k : Kind) (si i : nat) (sd ed : Z)
    (v e e' : Q) :
  phase_ok s (k, mkTuple si (Nat.pred i) sd ed v e ((e - v) / v)) ->
  (1 <= i < length s)%nat ->
  (e' = e /\ match k with
             | Bull => value_at s i <= e
             | Bear => e <= value_at s i
             end) \/
  (e' = value_at s i /\ match k with Bull => e < e' | Bear => e' < e end) ->
  phase_ok s (k, mkTuple si i sd (time_at s i) v e' ((e' - v) / v)).
Proof.
  intros [Hr Hst Het Ho [j [Hj Hjv]] Hord Hb Hc] Hi He.
  unfold start_index, end_index, start_time, end_time, originating_extremum,
    terminating_extremum, magnitude, kind in *; cbn in *.
  constructor;
    unfold start_index, end_index, start_time, end_time, originating_extremum,
      terminating_extremum, magnitude, kind; cbn; auto; try lia.
  - destruct He as [[-> _]|[-> _]].
    + exists j. split; [lia|exact Hjv].
    + exists i. split; [lia|reflexivity].
  - destruct He as [[-> _]|[-> He]]; [exact Hord|].
    destruct k; lra.
  - intros j' Hj'.
    destruct (Nat.eq_dec j' i) as [->|Hne].
    + destruct He as [[-> He]|[-> He]]; destruct k; lra.
    + assert (Hin : (si <= j' <= Nat.pred i)%nat) by lia.
      specialize (Hb j' Hin).
      destruct He as [[-> He]|[-> He]]; destruct k; lra.
Qed.

(** *** The loop invariant *)

Ltac q_bools :=
  repeat match goal with
    | H : Qle_bool _ _ = true |- _ => apply Qle_bool_iff in H
    | H : Qle_bool _ _ = false |- _ => apply Qle_bool_false in H
    | H : Qlt_bool _ _ = true |- _ => apply Qlt_bool_true in H
    | H : Qlt_bool _ _ = false |- _ => apply Qlt_bool_false in H
    end.

Lemma linked_same_start (x p p' : MarketPhase) :
  kind p' = kind p -> start_index p' = start_index p ->
  linked x p -> linked x p'.
Proof. unfold linked. intros -> ->. auto. Qed.

Ltac log_parts :=
  rewrite ?tuples_of_app; cbn; rewrite ?app_nil_r, ?Nat.sub_1_r;
  subst; reflexivity.

Ltac pick_log l :=
  eexists; split; [reflexivity|]; exists l;
  cbn [in_bull in_bear peak trough start_idx bull_markets bear_markets Nat.pred];
  split; [log_parts|]; split; [log_parts|].

Lemma loop_body_preserves (s : Series) (th : Q) (i : nat) (st : State) :
  (1 <= i < length s)%nat -> Inv s i st ->
  exists st', loop_body s th i st = Ok st' /\ Inv s (S i) st'.
Proof.
  intros Hi (log & Hb & Hr & Hok & Hex & Hp).
  unfold loop_body. rewrite iloc_in_range by lia. cbn [bind].
  destruct st as [bm rm ib ir si pk tr]. unfold pending in Hp.
  cbn in Hb, Hr, Hex, Hp.
  unfold confirm, close_bear, close_bull, update_extrema, Inv, pending.
  cbn [in_bull in_bear peak trough start_idx bull_markets bear_markets].
  destruct ib, ir.
  - specialize (Hex eq_refl). discriminate.
  - (* a bull phase is open *)
    destruct Hp as [Hpk Hs].
    pose proof (ok_range Hpk) as Hrg.
    unfold start_index, end_index in Hrg. cbn in Hrg.
    pose proof (ok_origin Hpk) as Hor.
    unfold originating_extremum, start_index in Hor. cbn in Hor.
    cbn [negb andb].
    destruct (Qle_bool (value_at s i) (pk * (1 - th))) eqn:Ec2.
    + rewrite !index_at_in_range by lia.
      cbn [bind in_bull in_bear peak trough start_idx bull_markets bear_markets andb].
      destruct (Qlt_bool (value_at s i) tr) eqn:Eu; q_bools;
        (pick_log (log ++ [(Bull, bull_tuple si (Nat.pred i) (time_at s si)
                                    (time_at s (Nat.pred i)) pk tr)]);
         split; [apply Forall_app; split; [exact Hok|constructor; [exact Hpk|constructor]]|];
         split; [discriminate|]; split;
         [apply phase_ok_fresh; [lia|reflexivity| |]
         |apply Sorted_snoc; [exact Hs|repeat split; cbn; try discriminate; lia]]).
      * exists i. split; [lia|reflexivity].
      * lra.
      * exists si. split; [lia|exact Hor].
      * exact Eu.
    + cbn [bind in_bull in_bear peak trough start_idx bull_markets bear_markets andb].
      destruct (Qlt_bool pk (value_at s i)) eqn:Eu; q_bools;
        (pick_log log; split; [exact Hok|]; split; [reflexivity|]; split;
         [apply (@phase_ok_extend s Bull si i (time_at s si) (time_at s (Nat.pred i)) tr pk); [exact Hpk|lia|]
         |eapply Sorted_replace_last; [|exact Hs];
          intros x; apply linked_same_start; reflexivity]).
      * right. split; [reflexivity|exact Eu].
      * left. split; [reflexivity|exact Eu].
  - (* a bear phase is open *)
    destruct Hp as [Hpk Hs].
    pose proof (ok_range Hpk) as Hrg.
    unfold start_index, end_index in Hrg. cbn in Hrg.
    pose proof (ok_origin Hpk) as Hor.
    unfold originating_extremum, start_index in Hor. cbn in Hor.
    cbn [negb andb].
    destruct (Qle_bool (tr * (1 + th)) (value_at s i)) eqn:Ec1.
    + rewrite !index_at_in_range by lia.
      cbn [bind in_bull in_bear peak trough start_idx bull_markets bear_markets andb].
      destruct (Qlt_bool pk (value_at s i)) eqn:Eu; q_bools;
        (pick_log (log ++ [(Bear, bear_tuple si (Nat.pred i) (time_at s si)
                                    (time_at s (Nat.pred i)) pk tr)]);
         split; [apply Forall_app; split; [exact Hok|constructor; [exact Hpk|constructor]]|];
         split; [reflexivity|]; split;
         [apply phase_ok_fresh; [lia|reflexivity| |]
         |apply Sorted_snoc; [exact Hs|repeat split; cbn; try discriminate; lia]]).
      * exists i. split; [lia|reflexivity].
      * lra.
      * exists si. split; [lia|exact Hor].
      * exact Eu.
    + cbn [bind in_bull in_bear peak trough start_idx bull_markets bear_markets andb].
      destruct (Qlt_bool (value_at s i) tr) eqn:Eu; q_bools;
        (pick_log log; split; [exact Hok|]; split; [discriminate|]; split;
         [apply (@phase_ok_extend s Bear si i (time_at s si) (time_at s (Nat.pred i)) pk tr); [exact Hpk|lia|]
         |eapply Sorted_replace_last; [|exact Hs];
          intros x; apply linked_same_start; reflexivity]).
      * right. split; [reflexivity|exact Eu].
      * left. split; [reflexivity|exact Eu].
  - (* no phase confirmed yet *)
    destruct Hp as (-> & -> & ->).
    cbn [negb andb].
    destruct (Qle_bool (value_at s 0 * (1 + th)) (value_at s i)) eqn:Ec1.
    + cbn [bind in_bull in_bear peak trough start_idx bull_markets bear_markets andb].
      destruct (Qlt_bool (value_at s 0) (value_at s i)) eqn:Eu; q_bools;
        (pick_log (@nil MarketPhase); split; [constructor|];
         split; [reflexivity|]; split;
         [apply phase_ok_fresh; [lia|reflexivity| |]|repeat constructor]).
      * exists i. split; [lia|reflexivity].
      * lra.
      * exists 0%nat. split; [lia|reflexivity].
      * exact Eu.
    + destruct (Qle_bool (value_at s i) (value_at s 0 * (1 - th))) eqn:Ec2.
      * cbn [bind in_bull in_bear peak trough start_idx bull_markets bear_markets andb].
        destruct (Qlt_bool (value_at s i) (value_at s 0)) eqn:Eu; q_bools;
          (pick_log (@nil MarketPhase); split; [constructor|];
           split; [discriminate|]; split;
           [apply phase_ok_fresh; [lia|reflexivity| |]|repeat constructor]).
        -- exists i. split; [lia|reflexivity].
        -- lra.
        -- exists 0%nat. split; [lia|reflexivity].
        -- exact Eu.
      * cbn [bind in_bull in_bear peak trough start_idx bull_markets bear_markets andb].
        pick_log (@nil MarketPhase). split; [constructor|].
        split; [discriminate|]. auto.
Qed.

(** The rule of the [for] loop: an invariant indexed by the position. *)
Lemma for_each_invariant (I : nat -> State -> Prop)
    (body : nat -> State -> result State) (n a : nat) (st : State) :
  I a st ->
  (forall i st0, (a <= i < a + n)%nat -> I i st0 ->
                 exists st', body i st0 = Ok st' /\ I (S i) st') ->
  exists st', for_each body (seq a n) st = Ok st' /\ I (a + n)%nat st'.
Proof.
  revert a st. induction n as [|n IH]; intros a st Ha Hstep; cbn.
  - exists st. rewrite Nat.add_0_r. auto.
  - destruct (Hstep a st ltac:(lia) Ha) as (st1 & -> & H1). cbn.
    destruct (IH (S a) st1 H1) as (st' & Hrun & H').
    { intros i st0 Hi. apply Hstep. lia. }
    exists st'. split; [exact Hrun|].
    now rewrite Nat.add_succ_r.
Qed.

(** The scan of a non-empty series ends, in a state that satisfies the
    invariant for the whole series. *)
Lemma scan_spec (s : Series) (th : Q) :
  s <> [] -> exists st, scan s th = Ok st /\ Inv s (length s) st.
Proof.
  intros Hne. unfold scan.
  rewrite iloc_in_range by (destruct s; [congruence|cbn; lia]). cbn [bind].
  assert (Hlen : (1 + (length s - 1))%nat = length s).
  { destruct s; [congruence|cbn; lia]. }
  destruct (@for_each_invariant (Inv s) (loop_body s th) (length s - 1) 1
              (mkState [] [] false false 0 (value_at s 0) (value_at s 0)))
    as (st & Hrun & Hinv).
  - exists []. cbn. repeat split; auto.
  - intros i st0 Hi. apply loop_body_preserves. lia.
  - exists st. rewrite Hlen in Hinv. auto.
Qed.

Lemma scan_empty (th : Q) : scan [] th = Err IndexError.
Proof. reflexivity. Qed.

(** The whole function on a non-empty series: it returns, its two outputs
    are the bull and bear parts of one log of linked, well-formed phases,
    and the merged sequence is that log. *)
Lemma segment_spec (s : Series) (th : Q) :
  s <> [] ->
  exists (st : State) (log : list MarketPhase),
    scan s th = Ok st /\
    identify_market_phases s th = Ok (tuples_of Bull log, tuples_of Bear log) /\
    segment s th = Ok log /\
    Sorted linked log /\
    Forall (phase_ok s) log /\
    match pending s (length s) st with
    | Some p => log = merge_phases (bull_markets st) (bear_markets st) ++ [p]
    | None => log = []
    end.
Proof.
  intros Hne.
  destruct (scan_spec th Hne) as (st & Hscan & log & Hb & Hr & Hok & Hex & Hp).
  assert (Hout : exists log',
             handle_last s st = Ok (tuples_of Bull log', tuples_of Bear log') /\
             Sorted linked log' /\ Forall (phase_ok s) log' /\
             match pending s (length s) st with
             | Some p => log' = merge_phases (bull_markets st) (bear_markets st) ++ [p]
             | None => log' = []
             end).
  { unfold handle_last. unfold pending in *.
    destruct st as [bm rm ib ir si pk tr]. cbn in *.
    destruct ib; [|destruct ir].
    - destruct Hp as [Hpk Hs].
      pose proof (ok_range Hpk) as Hrg.
      unfold start_index, end_index in Hrg. cbn in Hrg.
      rewrite index_at_in_range by lia.
      rewrite index_last_nonempty by exact Hne. cbn [bind].
      eexists. split; [|split; [exact Hs|split]].
      + rewrite !tuples_of_app. cbn. rewrite app_nil_r, Nat.sub_1_r.
        now subst.
      + apply Forall_app. split; [exact Hok|]. constructor; [exact Hpk|constructor].
      + subst bm rm. rewrite merge_phases_log; [reflexivity|].
        eapply Sorted_prefix. exact Hs.
    - destruct Hp as [Hpk Hs].
      pose proof (ok_range Hpk) as Hrg.
      unfold start_index, end_index in Hrg. cbn in Hrg.
      rewrite index_at_in_range by lia.
      rewrite index_last_nonempty by exact Hne. cbn [bind].
      eexists. split; [|split; [exact Hs|split]].
      + rewrite !tuples_of_app. cbn. rewrite app_nil_r, Nat.sub_1_r.
        now subst.
      + apply Forall_app. split; [exact Hok|]. constructor; [exact Hpk|constructor].
      + subst bm rm. rewrite merge_phases_log; [reflexivity|].
        eapply Sorted_prefix. exact Hs.
    - destruct Hp as (-> & _). exists []. subst. cbn.
      repeat split; constructor. }
  destruct Hout as (log' & Hlast & Hs' & Hok' & Hpend).
  exists st, log'. unfold segment, identify_market_phases.
  rewrite Hscan. cbn [bind]. rewrite Hlast. cbn [bind fst snd].
  rewrite merge_phases_log by exact Hs'. auto 10.
Qed.

Lemma segment_empty (th : Q) : segment [] th = Err IndexError.
Proof. reflexivity. Qed.

(** Positions in a log of linked, well-formed phases. *)
Lemma linked_positions (log : list MarketPhase) :
  Sorted linked log ->
  forall i j p q, (i < j)%nat ->
    nth_error log i = Some p -> nth_error log j = Some q ->
    (end_index p < start_index q)%nat.
Proof.
  induction log as [|x log IH]; intros Hs i j p q Hij Hp Hq.
  - destruct i; discriminate.
  - destruct j as [|j]; [lia|]. cbn in Hq.
    destruct i as [|i]; cbn in Hp.
    + injection Hp as ->.
      pose proof (linked_later Hs) as Hl. rewrite Forall_forall in Hl.
      apply Hl. eapply nth_error_In. exact Hq.
    + inversion Hs as [|? ? Hs' _]; subst.
      apply (IH Hs' i j p q); [lia|exact Hp|exact Hq].
Qed.

Lemma start_positions_sorted (s : Series) (log : list MarketPhase) :
  Sorted linked log -> Forall (phase_ok s) log ->
  forall i j p q, (i <= j)%nat ->
    nth_error log i = Some p -> nth_error log j = Some q ->
    (start_index p <= start_index q)%nat.
Proof.
  intros Hs Hok i j p q Hij Hp Hq.
  destruct (Nat.eq_dec i j) as [->|Hne].
  - rewrite Hp in Hq. injection Hq as ->. lia.
  - assert (Hlt : (end_index p < start_index q)%nat).
    { eapply linked_positions; [exact Hs| |exact Hp|exact Hq]. lia. }
    rewrite Forall_forall in Hok.
    pose proof (ok_range (Hok p (nth_error_In _ _ Hp))). lia.
Qed.

End SegmenterFacts.

Import SegmenterFacts.

(** ** The properties of the segmentation *)

(** C1, as described, does not hold: on the scenario series with
    threshold 0.2 the segmentation does not yield a bull phase over
    positions 0 to 3 with magnitude 0.21 followed by a bear phase from
    121 to 95. *)
Lemma scenario_not_as_described :
  ~ (exists phases, segment scenario_series (1 # 5) = Ok phases /\
                    scenario_as_described phases).
Proof.
  intros (phases & Hseg & b & r & -> & _ & Hstart & _).
  vm_compute in Hseg. injection Hseg as <- _.
  vm_compute in Hstart. discriminate.
Qed.

(** C1, amended: on the scenario series with threshold 0.2 the
    segmentation yields exactly two phases, a bull phase over positions 2
    to 3 with reference low 121, reference high 121 and magnitude 0,
    followed by a bear phase over positions 4 to 5 with reference high 95,
    reference low 95 and magnitude 0; the bear phase is still open when
    the scan ends and is emitted by the final flush. *)
Theorem scenario_phases :
  exists b r : MarketPhase,
    segment scenario_series (1 # 5) = Ok [b; r] /\
    kind b = Bull /\ start_index b = 2%nat /\ end_index b = 3%nat /\
    reference_low b == 121 /\ reference_high b == 121 /\
    magnitude b == 0 /\
    kind r = Bear /\ start_index r = 4%nat /\ end_index r = 5%nat /\
    reference_high r == 95 /\ reference_low r == 95 /\
    magnitude r == 0 /\
    exists st, scan scenario_series (1 # 5) = Ok st /\
               in_bear st = true /\
               bull_markets st = [snd b] /\ bear_markets st = [].
Proof.
  do 2 eexists. split; [vm_compute; reflexivity|].
  repeat (split; [reflexivity|]).
  eexists. split; [vm_compute; reflexivity|].
  repeat split.
Qed.

(** C2: for a threshold in (0,1) the merged phases are in position order
    (a phase ends before the next one starts, so start positions never
    decrease), consecutive phases differ in kind, and every phase has
    [start_index <= end_index]; the only series without an outcome is the
    empty one. *)
Theorem phases_ordered_alternating (s : Series) (th : Q) :
  0 < th -> th < 1 ->
  match segment s th with
  | Ok phases =>
      (forall i j p q, (i <= j)%nat ->
         nth_error phases i = Some p -> nth_error phases j = Some q ->
         (start_index p <= start_index q)%nat) /\
      (forall i p q,
         nth_error phases i = Some p -> nth_error phases (S i) = Some q ->
         kind p <> kind q /\ (end_index p < start_index q)%nat) /\
      Forall (fun p => (start_index p <= end_index p)%nat) phases
  | Err _ => s = []
  end.
Proof.
  intros _ _. destruct s as [|x s]; [reflexivity|].
  destruct (@segment_spec (x :: s) th ltac:(discriminate))
    as (st & log & _ & _ & -> & Hs & Hok & _).
  split; [|split].
  - exact (start_positions_sorted Hs Hok).
  - intros i p q Hp Hq.
    destruct (Sorted_adjacent _ Hs Hp Hq) as (Hk & _ & He).
    split; [exact Hk|lia].
  - eapply Forall_impl; [|exact Hok]. intros p Hp.
    pose proof (ok_range Hp). lia.
Qed.

Lemma phases_ordered_alternating_witness :
  match segment scenario_series (1 # 5) with
  | Ok phases =>
      (forall i j p q, (i <= j)%nat ->
         nth_error phases i = Some p -> nth_error phases j = Some q ->
         (start_index p <= start_index q)%nat) /\
      (forall i p q,
         nth_error phases i = Some p -> nth_error phases (S i) = Some q ->
         kind p <> kind q /\ (end_index p < start_index q)%nat) /\
      Forall (fun p => (start_index p <= end_index p)%nat) phases
  | Err _ => scenario_series = []
  end.
Proof. apply phases_ordered_alternating; reflexivity. Defined.

(** X2: with timestamps that never decrease along the series, the phases are
    in time order as well: the recorded dates are those of the start and
    end positions. *)
Lemma phases_time_ordered (s : Series) (th : Q) (phases : list MarketPhase) :
  segment s th = Ok phases ->
  (forall i j, (i <= j < length s)%nat -> (time_at s i <= time_at s j)%Z) ->
  forall i j p q, (i <= j)%nat ->
    nth_error phases i = Some p -> nth_error phases j = Some q ->
    (start_time p <= end_time p)%Z /\ (start_time p <= start_time q)%Z.
Proof.
  intros Hseg Hmono i j p q Hij Hp Hq.
  destruct s as [|x s]; [discriminate|].
  destruct (@segment_spec (x :: s) th ltac:(discriminate))
    as (st & log & _ & _ & Hlog & Hs & Hok & _).
  rewrite Hlog in Hseg. injection Hseg as <-.
  pose proof (@start_positions_sorted _ _ Hs Hok i j p q Hij Hp Hq) as Hpos.
  rewrite Forall_forall in Hok.
  destruct (Hok p (nth_error_In _ _ Hp)) as [Hrp Hsp Hep _ _ _ _ _].
  destruct (Hok q (nth_error_In _ _ Hq)) as [Hrq Hsq _ _ _ _ _ _].
  rewrite Hsp, Hep, Hsq. split; apply Hmono; lia.
Qed.

(** C3: on a series of positive values and for a threshold in (0,1),
    every bull phase has magnitude [(peak - trough) / trough >= 0] and
    every bear phase has magnitude [(trough - peak) / peak <= 0]. *)
Theorem magnitude_sign (s : Series) (th : Q) :
  Forall (fun pt => 0 < snd pt) s ->
  0 < th -> th < 1 ->
  match segment s th with
  | Ok phases =>
      Forall (fun p =>
                match kind p with
                | Bull =>
                    magnitude p
                    = (reference_high p - reference_low p) / reference_low p
                    /\ 0 <= magnitude p
                | Bear =>
                    magnitude p
                    = (reference_low p - reference_high p) / reference_high p
                    /\ magnitude p <= 0
                end) phases
  | Err _ => s = []
  end.
Proof.
  intros Hpos _ _. destruct s as [|x s]; [reflexivity|].
  destruct (@segment_spec (x :: s) th ltac:(discriminate))
    as (st & log & _ & _ & -> & _ & Hok & _).
  eapply Forall_impl; [|exact Hok].
  intros [k t] [Hr _ _ Ho _ Hord _ Hc].
  unfold reference_high, reference_low, magnitude, originating_extremum,
    terminating_extremum, start_index, end_index, kind in *.
  cbn [fst snd] in *.
  assert (Hfirst : 0 < t_first t).
  { rewrite Ho.
    assert (Hin : In (value_at (x :: s) (t_start_idx t)) (map snd (x :: s)))
      by (apply value_at_In; lia).
    apply in_map_iff in Hin as (pt & <- & Hin).
    rewrite Forall_forall in Hpos. now apply Hpos. }
  destruct k; (split; [exact Hc|]); rewrite Hc.
  - apply Qle_shift_div_l; [exact Hfirst|]. lra.
  - apply Qle_shift_div_r; [exact Hfirst|]. lra.
Qed.

Lemma magnitude_sign_witness :
  match segment scenario_series (1 # 5) with
  | Ok phases =>
      Forall (fun p =>
                match kind p with
                | Bull =>
                    magnitude p
                    = (reference_high p - reference_low p) / reference_low p
                    /\ 0 <= magnitude p
                | Bear =>
                    magnitude p
                    = (reference_low p - reference_high p) / reference_high p
                    /\ magnitude p <= 0
                end) phases
  | Err _ => scenario_series = []
  end.
Proof.
  apply magnitude_sign; [|reflexivity|reflexivity].
  repeat constructor.
Defined.

(** C4 fails on the code: on [stale_peak_series] with threshold 0.2 the
    bull phase over positions 3 to 4 is emitted with reference high 70,
    the value at position 1, although both values in its range are 65. *)
Theorem reference_high_outside_phase :
  exists r b : MarketPhase,
    segment stale_peak_series (1 # 5) = Ok [r; b] /\
    kind b = Bull /\ start_index b = 3%nat /\ end_index b = 4%nat /\
    reference_high b = 70 /\
    iloc stale_peak_series 1 = Ok 70 /\
    forall j, (start_index b <= j <= end_index b)%nat ->
              iloc stale_peak_series j = Ok 65.
Proof.
  do 2 eexists. split; [vm_compute; reflexivity|].
  repeat (split; [reflexivity|]).
  cbn. intros j Hj.
  assert (j = 3 \/ j = 4)%nat as [->| ->] by lia; reflexivity.
Qed.

(** X1: the terminating extremum of every phase (the reference high of a
    bull phase, the reference low of a bear phase) is a value of the
    series at or before the end of the phase, and no value in the range
    of the phase lies beyond it. *)
Lemma terminating_extremum_bounds (s : Series) (th : Q) (phases : list MarketPhase) :
  segment s th = Ok phases ->
  Forall (fun p =>
            (exists j, (j <= end_index p)%nat /\
                       iloc s j = Ok (terminating_extremum p)) /\
            forall j v, (start_index p <= j <= end_index p)%nat ->
                        iloc s j = Ok v ->
                        match kind p with
                        | Bull => v <= reference_high p
                        | Bear => reference_low p <= v
                        end) phases.
Proof.
  intros Hseg. destruct s as [|x s]; [discriminate|].
  destruct (@segment_spec (x :: s) th ltac:(discriminate))
    as (st & log & _ & _ & Hlog & _ & Hok & _).
  rewrite Hlog in Hseg. injection Hseg as <-.
  eapply Forall_impl; [|exact Hok].
  intros p [Hr _ _ _ (j & Hj & Hjv) _ Hb _]. split.
  - exists j. split; [exact Hj|].
    rewrite iloc_in_range by lia. now rewrite Hjv.
  - intros j' v Hj' Hv. rewrite iloc_in_range in Hv by lia.
    injection Hv as <-. specialize (Hb j' Hj').
    unfold reference_high, reference_low, terminating_extremum in *.
    destruct (kind p); exact Hb.
Qed.

(** C5: for a threshold in (0,1), when the scan ends inside a bull or a
    bear phase, the merged sequence is the phases emitted during the scan
    followed by one final phase of the open kind, from the open start
    position to the last position of the series. *)
Theorem open_phase_flushed (s : Series) (th : Q) (st : State) :
  0 < th -> th < 1 ->
  scan s th = Ok st ->
  in_bull st || in_bear st = true ->
  exists p : MarketPhase,
    segment s th
    = Ok (merge_phases (bull_markets st) (bear_markets st) ++ [p]) /\
    kind p = (if in_bull st then Bull else Bear) /\
    start_index p = start_idx st /\
    end_index p = (length s - 1)%nat.
Proof.
  intros _ _ Hscan Hmode.
  destruct s as [|x s]; [discriminate|].
  destruct (@segment_spec (x :: s) th ltac:(discriminate))
    as (st' & log & Hscan' & _ & -> & _ & _ & Hpend).
  rewrite Hscan in Hscan'. injection Hscan' as <-.
  unfold pending in Hpend. rewrite <- Nat.sub_1_r in Hpend.
  destruct (in_bull st); [|destruct (in_bear st); [|discriminate]];
    eexists; (split; [rewrite Hpend; reflexivity|]); repeat split.
Qed.

Lemma open_phase_flushed_witness :
  exists p : MarketPhase,
    segment scenario_series (1 # 5)
    = Ok ([(Bull, mkTuple 2 3 2 3 121 121 ((121 - 121) / 121))] ++ [p]) /\
    kind p = Bear /\ start_index p = 4%nat /\ end_index p = 5%nat.
Proof.
  exact (@open_phase_flushed scenario_series (1 # 5)
           (mkState [mkTuple 2 3 2 3 121 121 ((121 - 121) / 121)] []
                    false true 4 95 95)
           eq_refl eq_refl eq_refl eq_refl).
Defined.

(** C6, as stated, does not hold: with threshold 0 and with threshold 1
    the segmentation of [flat_series] returns normally. *)
Lemma threshold_out_of_range_accepted :
  segment flat_series 0
  = Ok [(Bull, mkTuple 1 1 1 1 100 100 ((100 - 100) / 100))] /\
  segment flat_series 1 = Ok [].
Proof. split; vm_compute; reflexivity. Qed.

(** C6, amended: a threshold outside (0,1) is not rejected; for such a
    threshold the segmentation returns a phase sequence on every
    non-empty series, and fails (with the [IndexError] of the first
    access) exactly on the empty series. *)
Theorem threshold_not_validated (s : Series) (th : Q) :
  th <= 0 \/ 1 <= th ->
  match segment s th with
  | Ok _ => s <> []
  | Err e => e = IndexError /\ s = []
  end.
Proof.
  intros _. destruct s as [|x s]; [now split|].
  destruct (@segment_spec (x :: s) th ltac:(discriminate))
    as (st & log & _ & _ & -> & _).
  discriminate.
Qed.

Lemma threshold_not_validated_witness :
  match segment flat_series 0 with
  | Ok _ => flat_series <> []
  | Err e => e = IndexError /\ flat_series = []
  end.
Proof.
  apply threshold_not_validated. left. vm_compute. discriminate.
Defined.

(** C7: a series with fewer than two points has no phases: with one point
    both outputs are empty, with no point the first access
    [series.iloc[0]] raises. *)
Theorem short_series_no_phases (s : Series) (th : Q) :
  (length s < 2)%nat ->
  (length s = 1%nat /\
   identify_market_phases s th = Ok ([], []) /\ segment s th = Ok []) \/
  (length s = 0%nat /\
   identify_market_phases s th = Err IndexError /\
   segment s th = Err IndexError).
Proof.
  intros Hlen. destruct s as [|[t v] [|y s]]; cbn in Hlen; try lia.
  - right. repeat split.
  - left. repeat split.
Qed.

Lemma short_series_no_phases_witness :
  (length [(0%Z, 100)] = 1%nat /\
   identify_market_phases [(0%Z, 100)] (1 # 5) = Ok ([], []) /\
   segment [(0%Z, 100)] (1 # 5) = Ok []) \/
  (length [(0%Z, 100)] = 0%nat /\
   identify_market_phases [(0%Z, 100)] (1 # 5) = Err IndexError /\
   segment [(0%Z, 100)] (1 # 5) = Err IndexError).
Proof. apply short_series_no_phases. cbn. lia. Defined.

(** C10: for a threshold in (0,1), the reference low of every bull phase
    and the reference high of every bear phase is the value of the series
    at the start position of the phase. *)
Theorem originating_extremum_at_start (s : Series) (th : Q) :
  0 < th -> th < 1 ->
  match segment s th with
  | Ok phases =>
      Forall (fun p =>
                match kind p with
                | Bull => iloc s (start_index p) = Ok (reference_low p)
                | Bear => iloc s (start_index p) = Ok (reference_high p)
                end) phases
  | Err _ => s = []
  end.
Proof.
  intros _ _. destruct s as [|x s]; [reflexivity|].
  destruct (@segment_spec (x :: s) th ltac:(discriminate))
    as (st & log & _ & _ & -> & _ & Hok & _).
  eapply Forall_impl; [|exact Hok].
  intros p [Hr _ _ Ho _ _ _ _].
  rewrite iloc_in_range by lia. rewrite <- Ho.
  unfold reference_low, reference_high, originating_extremum.
  destruct (kind p); reflexivity.
Qed.

Lemma originating_extremum_at_start_witness :
  match segment scenario_series (1 # 5) with
  | Ok phases =>
      Forall (fun p =>
                match kind p with
                | Bull => iloc scenario_series (start_index p)
                          = Ok (reference_low p)
                | Bear => iloc scenario_series (start_index p)
                          = Ok (reference_high p)
                end) phases
  | Err _ => scenario_series = []
  end.
Proof. apply originating_extremum_at_start; reflexivity. Defined.

(** ** The percentage-change column *)

Section PercentageChange.
Import PrimFloat.

(** C8, as stated, does not hold: for the prices 100, 110 the cell at
    position 1 is [10.000000000000009], not the fractional change
    [(110 - 100) / 100]; the two differ by more than 9. *)
Lemma pct_change_not_fractional :
  exists cell,
    nth_error (price_pct_change [100; 110]%float) 1 = Some cell /\
    (cell =? (110 - 100) / 100)%float = false /\
    (9 <? cell - (110 - 100) / 100)%float = true.
Proof.
  eexists. split; [reflexivity|]. split; vm_compute; reflexivity.
Qed.

Lemma pct_change_from_nth (prev : float) (xs : list float) (t : nat) :
  (t < length xs)%nat ->
  nth_error (pct_change_from prev xs) t
  = Some (nth t xs nan / nth t (prev :: xs) nan - 1)%float.
Proof.
  revert prev t. induction xs as [|x xs IH]; intros prev [|t] Ht;
    cbn in *; try lia; auto.
  apply IH. lia.
Qed.

Lemma pct_change_length (prices : list float) :
  length (pct_change prices) = length prices.
Proof.
  destruct prices as [|x xs]; [reflexivity|]. cbn. f_equal.
  revert x. induction xs as [|y xs IH]; intros x; cbn; auto.
Qed.

(** C8, amended: on a price column without missing values, the column
    [price_pct_change] has one cell per price, is missing (NaN) at the
    first position and, at every position [t >= 1], holds the fractional
    change in percent as it is computed in binary64,
    [(price[t] / price[t-1] - 1) * 100]. *)
Theorem price_pct_change_percent (prices : list float) :
  Forall (fun p => is_nan p = false) prices ->
  length (price_pct_change prices) = length prices /\
  (prices <> [] -> nth_error (price_pct_change prices) 0 = Some nan) /\
  forall t, (1 <= t < length prices)%nat ->
    nth_error (price_pct_change prices) t
    = Some ((nth t prices nan / nth (t - 1) prices nan - 1) * 100)%float.
Proof.
  intros _. split; [|split].
  - unfold price_pct_change, times.
    now rewrite length_map, pct_change_length.
  - destruct prices as [|x xs]; [congruence|]. intros _. reflexivity.
  - intros t Ht. destruct prices as [|x xs]; [cbn in Ht; lia|].
    destruct t as [|t]; [lia|].
    unfold price_pct_change, times, pct_change.
    rewrite nth_error_map. cbn [nth_error].
    cbn in Ht. rewrite pct_change_from_nth by lia. cbn [option_map].
    replace (S t - 1)%nat with t by lia.
    reflexivity.
Qed.

Lemma price_pct_change_percent_witness :
  length (price_pct_change [100; 110]%float) = 2%nat /\
  ([100; 110]%float <> [] ->
   nth_error (price_pct_change [100; 110]%float) 0 = Some nan) /\
  forall t, (1 <= t < 2)%nat ->
    nth_error (price_pct_change [100; 110]%float) t
    = Some ((nth t [100; 110] nan / nth (t - 1) [100; 110] nan - 1)
            * 100)%float.
Proof.
  apply (@price_pct_change_percent [100; 110]%float).
  repeat constructor.
Defined.

End PercentageChange.

(** ** The forecast table *)

(** C9, as stated, does not hold: the row with crossed bounds is emitted,
    and the next-day price is read from it. *)
Lemma crossed_bounds_emitted :
  forecast crossed_prediction start_dt = crossed_prediction /\
  next_day_price crossed_prediction start_dt = Ok 50 /\
  exists r, In r (forecast crossed_prediction start_dt) /\
            yhat_upper r < yhat_lower r /\ ~ bounds_ordered r.
Proof.
  split; [reflexivity|]. split; [reflexivity|].
  exists (mkRow start_dt 50 60 40). split; [now left|].
  split; [reflexivity|].
  unfold bounds_ordered. cbn. lra.
Qed.

(** C9, amended: the forecast table is exactly the rows of the prediction
    dated from [start_dt] to one day after the current time, in the order
    and with the values of the prediction; the bounds are not examined,
    and the emitted rows have ordered bounds whenever those of the
    prediction do. *)
Theorem forecast_selects_by_date (predicted : list Row) (now : Z) :
  (forall r, In r (forecast predicted now) <->
             In r predicted /\ (start_dt <= ds r <= now + one_day)%Z) /\
  (Forall bounds_ordered predicted ->
   Forall bounds_ordered (forecast predicted now)).
Proof.
  split.
  - intros r. unfold forecast. rewrite filter_In.
    rewrite andb_true_iff, !Z.leb_le. tauto.
  - intros Hall. rewrite Forall_forall in *.
    intros r Hr. apply Hall. unfold forecast in Hr.
    now apply filter_In in Hr.
Qed.

(** * Further properties *)

(** ** Transitions of the scan *)

(** An iteration that completes read the current value, went through the
    confirmation and then through the update of the extrema. *)
Lemma loop_body_inv (s : Series) (th : Q) (i : nat) (st st' : State) :
  loop_body s th i st = Ok st' ->
  exists v stc, iloc s i = Ok v /\
                confirm s th i v st = Ok stc /\
                st' = update_extrema v stc.
Proof.
  unfold loop_body. destruct (iloc s i) as [v|]; [|discriminate].
  cbn [bind]. destruct (confirm s th i v st) as [stc|] eqn:Ec; [|discriminate].
  cbn [bind]. intros H. injection H as <-. exists v, stc. auto.
Qed.

(** The three outcomes of the confirmation. *)
Lemma confirm_inv (s : Series) (th : Q) (i : nat) (v : Q) (st stc : State) :
  confirm s th i v st = Ok stc ->
  (in_bull st = false /\ trough st * (1 + th) <= v /\
   exists rm',
     stc = mkState (bull_markets st) rm' true false i (peak st) v /\
     if in_bear st
     then exists sd ed,
            rm' = bear_markets st ++
                  [bear_tuple (start_idx st) (i - 1) sd ed (peak st) (trough st)]
     else rm' = bear_markets st) \/
  ((in_bull st = true \/ v < trough st * (1 + th)) /\
   in_bear st = false /\ v <= peak st * (1 - th) /\
   exists bm',
     stc = mkState bm' (bear_markets st) false true i v (trough st) /\
     if in_bull st
     then exists sd ed,
            bm' = bull_markets st ++
                  [bull_tuple (start_idx st) (i - 1) sd ed (peak st) (trough st)]
     else bm' = bull_markets st) \/
  ((in_bull st = true \/ v < trough st * (1 + th)) /\
   (in_bear st = true \/ peak st * (1 - th) < v) /\
   stc = st).
Proof.
  destruct st as [bm rm ib ir si pk tr].
  unfold confirm, close_bear, close_bull.
  cbn [in_bull in_bear peak trough start_idx bull_markets bear_markets].
  destruct ib; cbn [negb andb].
  - destruct ir; cbn [negb andb].
    + intros H. injection H as <-. right. right. auto.
    + destruct (Qle_bool v (pk * (1 - th))) eqn:E2; q_bools.
      * destruct (index_at s si) as [sd|]; [|discriminate].
        destruct (index_at s (i - 1)) as [ed|]; [|discriminate].
        cbn. intros H. injection H as <-.
        right. left. repeat split; auto. eexists. split; [reflexivity|]. eauto.
      * intros H. injection H as <-. right. right. auto.
  - destruct (Qle_bool (tr * (1 + th)) v) eqn:E1; q_bools.
    + destruct ir.
      * destruct (index_at s si) as [sd|]; [|discriminate].
        destruct (index_at s (i - 1)) as [ed|]; [|discriminate].
        cbn. intros H. injection H as <-.
        left. repeat split; auto. eexists. split; [reflexivity|]. eauto.
      * cbn. intros H. injection H as <-.
        left. repeat split; auto. eexists. split; reflexivity.
    + destruct ir; cbn [negb andb].
      * intros H. injection H as <-. right. right. auto.
      * destruct (Qle_bool v (pk * (1 - th))) eqn:E2; q_bools.
        -- cbn. intros H. injection H as <-.
           right. left. repeat split; auto. eexists. split; reflexivity.
        -- intros H. injection H as <-. right. right. auto.
Qed.

(** The update of the extrema touches nothing but the running extremum of
    the open phase. *)
Lemma update_extrema_inv (v : Q) (st : State) :
  exists pk' tr',
    update_extrema v st
    = mkState (bull_markets st) (bear_markets st) (in_bull st) (in_bear st)
              (start_idx st) pk' tr' /\
    (pk' = peak st \/ (in_bull st = true /\ pk' = v)) /\
    (tr' = trough st \/ (in_bear st = true /\ tr' = v)).
Proof.
  destruct st as [bm rm ib ir si pk tr]. unfold update_extrema.
  cbn [in_bull in_bear peak trough start_idx bull_markets bear_markets].
  destruct ib, ir; cbn [andb];
    try destruct (Qlt_bool pk v); try destruct (Qlt_bool v tr);
    do 2 eexists; (split; [reflexivity|]);
    (split; first [left; reflexivity | right; repeat split; reflexivity]).
Qed.

(** An invariant of the scan may rely on the structural invariant, and is
    only asked to hold along iterations that complete. *)
Lemma scan_invariant (I : nat -> State -> Prop) (s : Series) (th : Q)
    (st : State) :
  I 1%nat (mkState [] [] false false 0 (value_at s 0) (value_at s 0)) ->
  (forall i st0 st1, (1 <= i < length s)%nat -> Inv s i st0 -> I i st0 ->
     loop_body s th i st0 = Ok st1 -> I (S i) st1) ->
  scan s th = Ok st ->
  I (length s) st /\ Inv s (length s) st.
Proof.
  intros H0 Hstep Hscan.
  destruct s as [|x s]; [discriminate|].
  unfold scan in Hscan.
  rewrite iloc_in_range in Hscan by (cbn; lia). cbn [bind] in Hscan.
  destruct (@for_each_invariant
              (fun n st0 => Inv (x :: s) n st0 /\ I n st0)
              (loop_body (x :: s) th) (length (x :: s) - 1) 1
              (mkState [] [] false false 0 (value_at (x :: s) 0)
                       (value_at (x :: s) 0)))
    as (st' & Hrun & Hinv & HI).
  - split; [|exact H0]. exists []. cbn. repeat split; auto.
  - intros i st0 Hi [Hinv HI].
    destruct (@loop_body_preserves (x :: s) th i st0) as (st1 & Hb & Hinv1);
      [cbn in *; lia|exact Hinv|].
    exists st1. split; [exact Hb|]. split; [exact Hinv1|].
    eapply Hstep; eauto. cbn in *; lia.
  - rewrite Hrun in Hscan. injection Hscan as <-.
    replace (1 + (length (x :: s) - 1))%nat with (length (x :: s)) in *
      by (cbn; lia).
    auto.
Qed.

(** Where the phases of the merged sequence come from. *)
Lemma merge_phases_In (bulls bears : list PhaseTuple) (p : MarketPhase) :
  In p (merge_phases bulls bears) ->
  (kind p = Bull /\ In (snd p) bulls) \/ (kind p = Bear /\ In (snd p) bears).
Proof.
  revert bears. induction bulls as [|b bulls IHb]; intros bears.
  - cbn. intros H. apply in_map_iff in H as (t & <- & Ht). right. auto.
  - induction bears as [|r bears IHr].
    + cbn. intros [<-|H]; [left; cbn; auto|].
      apply in_map_iff in H as (t & <- & Ht). left. cbn. auto.
    + cbn [merge_phases].
      destruct (t_start_idx b <=? t_start_idx r)%nat.
      * intros [<-|H]; [left; cbn; auto|].
        apply IHb in H as [[Hk H]|[Hk H]]; [left|right]; cbn; auto.
      * intros [<-|H]; [right; cbn; auto|].
        apply IHr in H as [[Hk H]|[Hk H]]; [left|right]; cbn in *; auto.
Qed.

(** A property of single phases passes from the two lists of the final
    state and the open phase to the merged sequence. *)
Lemma phases_Forall (P : MarketPhase -> Prop) (s : Series) (th : Q)
    (st : State) (phases : list MarketPhase) :
  scan s th = Ok st -> segment s th = Ok phases ->
  Forall (fun t => P (Bull, t)) (bull_markets st) ->
  Forall (fun t => P (Bear, t)) (bear_markets st) ->
  (forall p, pending s (length s) st = Some p -> P p) ->
  Forall P phases.
Proof.
  intros Hscan Hseg Hb Hr Hp.
  destruct s as [|x s]; [discriminate|].
  destruct (@segment_spec (x :: s) th ltac:(discriminate))
    as (st' & log & Hscan' & _ & Hlog & _ & _ & Hpend).
  rewrite Hscan in Hscan'. injection Hscan' as <-.
  rewrite Hlog in Hseg. injection Hseg as <-.
  assert (Hmerge : Forall P (merge_phases (bull_markets st) (bear_markets st))).
  { apply Forall_forall. intros [k t] Hin.
    rewrite Forall_forall in Hb, Hr.
    apply merge_phases_In in Hin as [[Hk Hin]|[Hk Hin]];
      cbn in Hk, Hin; subst k; auto. }
  destruct (pending (x :: s) (length (x :: s)) st) as [p|].
  - subst log. apply Forall_app. split; [exact Hmerge|].
    constructor; [now apply Hp|constructor].
  - subst log. constructor.
Qed.

(** ** Further properties of the segmentation *)

(** No tuple, and no open phase, starts at position 0. *)
Lemma scan_starts_after_first (s : Series) (th : Q) (st : State) :
  scan s th = Ok st ->
  Forall (fun t => (1 <= t_start_idx t)%nat) (bull_markets st) /\
  Forall (fun t => (1 <= t_start_idx t)%nat) (bear_markets st) /\
  (in_bull st = true \/ in_bear st = true -> (1 <= start_idx st)%nat).
Proof.
  intros Hscan.
  apply (@scan_invariant
           (fun _ st0 =>
              Forall (fun t => (1 <= t_start_idx t)%nat) (bull_markets st0) /\
              Forall (fun t => (1 <= t_start_idx t)%nat) (bear_markets st0) /\
              (in_bull st0 = true \/ in_bear st0 = true ->
               (1 <= start_idx st0)%nat))) in Hscan.
  - tauto.
  - cbn. repeat split; try constructor. intros [H|H]; discriminate.
  - intros i st0 st1 Hi _ (Hb & Hr & Hm) Hbody.
    apply loop_body_inv in Hbody as (v & stc & _ & Hc & ->).
    destruct (update_extrema_inv v stc) as (pk' & tr' & -> & _).
    cbn [bull_markets bear_markets in_bull in_bear start_idx].
    apply confirm_inv in Hc
      as [(Eb & _ & rm' & -> & Hrm)|[(_ & Er & _ & bm' & -> & Hbm)|(_ & _ & ->)]];
      cbn [bull_markets bear_markets in_bull in_bear start_idx].
    + repeat split; auto; [|intros _; lia].
      destruct (in_bear st0) eqn:Er; [|now subst].
      destruct Hrm as (sd & ed & ->).
      apply Forall_app. split; [exact Hr|].
      constructor; [|constructor]. cbn. apply Hm. auto.
    + repeat split; auto; [|intros _; lia].
      destruct (in_bull st0) eqn:Eb; [|now subst].
      destruct Hbm as (sd & ed & ->).
      apply Forall_app. split; [exact Hb|].
      constructor; [|constructor]. cbn. apply Hm. auto.
    + auto.
Qed.

(** X3: the phases tile the series from the first confirmation to its end:
    no phase starts at position 0, each phase starts right after the one
    before it ends, and the last one ends at the last position. *)
Theorem phases_tile_the_tail (s : Series) (th : Q)
    (phases : list MarketPhase) :
  segment s th = Ok phases ->
  Forall (fun p => (1 <= start_index p)%nat) phases /\
  (forall i p q,
     nth_error phases i = Some p -> nth_error phases (S i) = Some q ->
     start_index q = S (end_index p)) /\
  (phases = [] \/
   exists earlier p, phases = earlier ++ [p] /\
                     end_index p = (length s - 1)%nat).
Proof.
  intros Hseg. destruct s as [|x s]; [discriminate|].
  destruct (@segment_spec (x :: s) th ltac:(discriminate))
    as (st & log & Hscan & _ & Hlog & Hs & _ & Hpend).
  destruct (@scan_starts_after_first _ _ _ Hscan) as (Hb & Hr & Hm).
  split; [|split].
  - eapply phases_Forall; eauto.
    unfold pending. intros p.
    destruct (in_bull st); [|destruct (in_bear st); [|discriminate]];
      intros H; injection H as <-; cbn; auto.
  - rewrite Hlog in Hseg. injection Hseg as <-.
    intros i p q Hp Hq.
    destruct (Sorted_adjacent _ Hs Hp Hq) as (_ & _ & He). now rewrite He.
  - rewrite Hlog in Hseg. injection Hseg as <-.
    unfold pending in Hpend.
    destruct (in_bull st); [|destruct (in_bear st); [|now left]];
      right; do 2 eexists; (split; [exact Hpend|]); cbn; lia.
Qed.

Lemma phases_tile_the_tail_witness :
  Forall (fun p => (1 <= start_index p)%nat) stale_peak_phases /\
  (forall i p q,
     nth_error stale_peak_phases i = Some p ->
     nth_error stale_peak_phases (S i) = Some q ->
     start_index q = S (end_index p)) /\
  (stale_peak_phases = [] \/
   exists earlier p,
     stale_peak_phases = earlier ++ [p] /\
     end_index p = (length stale_peak_series - 1)%nat).
Proof.
  apply (@phases_tile_the_tail stale_peak_series (1 # 5)).
  vm_compute. reflexivity.
Defined.

Lemma tuples_of_cons (k : Kind) (p : MarketPhase) (log : list MarketPhase) :
  tuples_of k (p :: log)
  = if is_kind k p then snd p :: tuples_of k log else tuples_of k log.
Proof. unfold tuples_of. cbn. now destruct (is_kind k p). Qed.

(** In a log of linked phases the kinds alternate, so the two kinds are
    balanced up to the first phase. *)
Lemma linked_balance (log : list MarketPhase) :
  Sorted linked log ->
  match log with
  | [] => True
  | (Bull, _) :: _ =>
      length (tuples_of Bull log) = length (tuples_of Bear log) \/
      length (tuples_of Bull log) = S (length (tuples_of Bear log))
  | (Bear, _) :: _ =>
      length (tuples_of Bear log) = length (tuples_of Bull log) \/
      length (tuples_of Bear log) = S (length (tuples_of Bull log))
  end.
Proof.
  induction log as [|[k t] log IH]; intros Hs; [exact I|].
  inversion Hs as [|? ? Hs' Hhd]; subst. specialize (IH Hs').
  destruct log as [|[k' t'] log].
  - destruct k; cbn; auto.
  - inversion Hhd as [|? ? (Hk & _)]; subst. unfold kind in Hk. cbn in Hk.
    destruct k, k'; try congruence.
    + rewrite (tuples_of_cons Bull (Bull, t)), (tuples_of_cons Bear (Bull, t)).
      cbn [is_kind kind fst snd length]. lia.
    + rewrite (tuples_of_cons Bull (Bear, t)), (tuples_of_cons Bear (Bear, t)).
      cbn [is_kind kind fst snd length]. lia.
Qed.

(** X6: the numbers of bull and bear markets returned differ by at most one. *)
Theorem bull_bear_counts_balanced (s : Series) (th : Q)
    (bulls bears : list PhaseTuple) :
  identify_market_phases s th = Ok (bulls, bears) ->
  (length bulls <= S (length bears))%nat /\
  (length bears <= S (length bulls))%nat.
Proof.
  intros Hout. destruct s as [|x s]; [discriminate|].
  destruct (@segment_spec (x :: s) th ltac:(discriminate))
    as (st & log & _ & Hid & _ & Hs & _).
  rewrite Hid in Hout. injection Hout as <- <-.
  pose proof (linked_balance Hs) as Hbal.
  destruct log as [|[[] t] log]; [cbn; lia| |]; lia.
Qed.

Lemma bull_bear_counts_balanced_witness :
  (length [mkTuple 3 4 3 4 65 70 ((70 - 65) / 65)]
   <= S (length [mkTuple 1 2 1 2 70 50 ((50 - 70) / 70)]))%nat /\
  (length [mkTuple 1 2 1 2 70 50 ((50 - 70) / 70)]
   <= S (length [mkTuple 3 4 3 4 65 70 ((70 - 65) / 65)]))%nat.
Proof.
  apply (@bull_bear_counts_balanced stale_peak_series (1 # 5)).
  vm_compute. reflexivity.
Defined.

(** *** Scanning a longer series *)








(** X8: the function raises exactly on the empty series, whatever the
    threshold: on a non-empty series every access of the scan and of the
    final flush is in range. *)
Theorem identify_market_phases_fails_iff_empty (s : Series) (th : Q) :
  (exists e, identify_market_phases s th = Err e) <-> s = [].
Proof.
  split.
  - intros (e & He). destruct s as [|x s]; [reflexivity|].
    destruct (@segment_spec (x :: s) th ltac:(discriminate))
      as (st & log & _ & Hid & _).
    congruence.
  - intros ->. exists IndexError. reflexivity.
Qed.

Lemma terminating_extremum_bounds_witness :
  Forall (fun p =>
            (exists j, (j <= end_index p)%nat /\
                       iloc stale_peak_series j
                       = Ok (terminating_extremum p)) /\
            forall j v, (start_index p <= j <= end_index p)%nat ->
                        iloc stale_peak_series j = Ok v ->
                        match kind p with
                        | Bull => v <= reference_high p
                        | Bear => reference_low p <= v
                        end) stale_peak_phases.
Proof.
  apply (@terminating_extremum_bounds stale_peak_series (1 # 5)).
  vm_compute. reflexivity.
Defined.

Lemma phases_time_ordered_witness :
  (start_time (Bear, mkTuple 1 2 1 2 70 50 ((50 - 70) / 70))
   <= end_time (Bear, mkTuple 1 2 1 2 70 50 ((50 - 70) / 70)))%Z /\
  (start_time (Bear, mkTuple 1 2 1 2 70 50 ((50 - 70) / 70))
   <= start_time (Bull, mkTuple 3 4 3 4 65 70 ((70 - 65) / 65)))%Z.
Proof.
  apply (@phases_time_ordered stale_peak_series (1 # 5) stale_peak_phases
           ltac:(vm_compute; reflexivity)) with
    (i := 0%nat) (j := 1%nat)
    (p := (Bear, mkTuple 1 2 1 2 70 50 ((50 - 70) / 70)))
    (q := (Bull, mkTuple 3 4 3 4 65 70 ((70 - 65) / 65))).
  - intros i j Hij. cbn in Hij.
    assert (Hi : (i = 0 \/ i = 1 \/ i = 2 \/ i = 3 \/ i = 4)%nat) by lia.
    assert (Hj : (j = 0 \/ j = 1 \/ j = 2 \/ j = 3 \/ j = 4)%nat) by lia.
    destruct Hi as [->|[->|[->|[->| ->]]]];
      destruct Hj as [->|[->|[->|[->| ->]]]];
      try lia; vm_compute; discriminate.
  - lia.
  - reflexivity.
  - reflexivity.
Defined.

(** ** The headline metrics *)

Lemma iloc_back_spec (A : Type) (column : list A) (k : nat) (d : A) :
  (1 <= k <= length column)%nat ->
  Metrics.iloc_back column k = Ok (nth (length column - k) column d).
Proof.
  intros Hk. unfold Metrics.iloc_back.
  destruct (Nat.leb_spec 1 k); [|lia].
  destruct (Nat.leb_spec k (length column)); [|lia]. cbn [andb].
  rewrite (nth_error_nth' column d) by lia. reflexivity.
Qed.

Lemma iloc_back_out_of_range (A : Type) (column : list A) (k : nat) :
  (length column < k)%nat -> Metrics.iloc_back column k = Err IndexError.
Proof.
  intros Hk. unfold Metrics.iloc_back.
  destruct (Nat.leb_spec k (length column)); [lia|].
  now rewrite andb_false_r.
Qed.

(** X12: the day-over-day metric raises exactly when the price column has
    fewer than two rows. *)
Theorem pct_change_metric_needs_two_rows (petrol_price : list Q) :
  Metrics.pct_change petrol_price = Err IndexError <->
  (length petrol_price < 2)%nat.
Proof.
  unfold Metrics.pct_change. split.
  - intros H. destruct (Nat.lt_ge_cases (length petrol_price) 2) as [|Hge];
      [assumption|].
    rewrite (iloc_back_spec petrol_price 0) in H by lia.
    rewrite (iloc_back_spec petrol_price 0) in H by lia.
    discriminate.
  - intros Hlt.
    destruct (Metrics.iloc_back petrol_price 1) as [c|[]]; [|reflexivity].
    cbn [bind]. now rewrite iloc_back_out_of_range by lia.
Qed.

(** ** The statistics of an event period *)

Lemma filter_nil_iff (A : Type) (f : A -> bool) (l : list A) :
  filter f l = [] <-> Forall (fun x => f x = false) l.
Proof.
  induction l as [|x l IH]; cbn.
  - split; constructor.
  - destruct (f x) eqn:E; split; intros H.
    + discriminate.
    + inversion H; congruence.
    + constructor; [exact E|now apply IH].
    + inversion H; subst. now apply IH.
Qed.

Lemma in_window_false (lo hi t : Z) :
  (lo <=? t)%Z && (t <=? hi)%Z = false <-> ~ (lo <= t <= hi)%Z.
Proof.
  rewrite andb_false_iff, !Z.leb_gt. lia.
Qed.

(** X14: the statistics of an event period raise exactly when no row of the
    frame is dated inside the period; in particular when the period ends
    before it starts. *)
Theorem period_change_needs_a_row (df : Series) (start_date end_date : Z) :
  (EventWindow.period_change df start_date end_date = Err IndexError <->
   Forall (fun row => ~ (start_date <= fst row <= end_date)%Z) df) /\
  ((end_date < start_date)%Z ->
   EventWindow.period_change df start_date end_date = Err IndexError).
Proof.
  assert (Hiff : EventWindow.period_change df start_date end_date
                 = Err IndexError <->
                 Forall (fun row => ~ (start_date <= fst row <= end_date)%Z) df).
  { unfold EventWindow.period_change.
    assert (Hnil : EventWindow.event_df df start_date end_date = [] <->
                   Forall (fun row => ~ (start_date <= fst row <= end_date)%Z)
                          df).
    { unfold EventWindow.event_df.
      etransitivity; [apply filter_nil_iff|].
      split; intros H; (eapply Forall_impl; [|exact H]); cbn; intros row;
        apply in_window_false. }
    rewrite <- Hnil.
    destruct (EventWindow.event_df df start_date end_date) as [|[t v] e].
    - split; reflexivity.
    - cbn [iloc nth_error bind].
      rewrite (iloc_back_spec (map snd ((t, v) :: e)) 0) by (cbn; lia).
      cbn [bind]. split; discriminate. }
  split; [exact Hiff|].
  intros Hlt. apply Hiff. apply Forall_forall. intros row _. lia.
Qed.

Lemma filter_StronglySorted (A : Type) (R : A -> A -> Prop) (f : A -> bool)
    (l : list A) :
  StronglySorted R l -> StronglySorted R (filter f l).
Proof.
  induction 1 as [|x l Hs IH Hx]; cbn; [constructor|].
  destruct (f x); [|exact IH].
  constructor; [exact IH|].
  rewrite Forall_forall in *. intros y Hy.
  apply Hx. apply filter_In in Hy. tauto.
Qed.

Lemma StronglySorted_ends (A : Type) (R : A -> A -> Prop) (l : list A)
    (i j : nat) (a b : A) :
  StronglySorted R l -> (i < j)%nat ->
  nth_error l i = Some a -> nth_error l j = Some b -> R a b.
Proof.
  intros Hs. revert i j. induction Hs as [|x l Hs IH Hx]; intros i j Hij Ha Hb.
  - destruct i; discriminate.
  - destruct j as [|j]; [lia|]. cbn in Hb.
    destruct i as [|i]; cbn in Ha.
    + injection Ha as ->. rewrite Forall_forall in Hx.
      apply Hx. eapply nth_error_In. exact Hb.
    + apply (IH i j); [lia|exact Ha|exact Hb].
Qed.

(** X15: on a frame sorted by date, the start and the end price of an event
    period are the prices of two rows dated inside the period, no row of
    the period being dated before the first or after the second. *)
Theorem period_change_first_and_last (df : Series) (start_date end_date : Z)
    (start_price end_price price_change pct_change : Q) :
  StronglySorted (fun a b => (fst a <= fst b)%Z) df ->
  EventWindow.period_change df start_date end_date
  = Ok (start_price, end_price, price_change, pct_change) ->
  exists first last : Z * Q,
    In first df /\ In last df /\
    snd first = start_price /\ snd last = end_price /\
    (start_date <= fst first)%Z /\ (fst last <= end_date)%Z /\
    forall row, In row df -> (start_date <= fst row <= end_date)%Z ->
                (fst first <= fst row <= fst last)%Z.
Proof.
  intros Hsorted. unfold EventWindow.period_change.
  pose proof (filter_StronglySorted
                (fun row => (start_date <=? fst row)%Z
                            && (fst row <=? end_date)%Z) Hsorted) as Hs.
  fold (EventWindow.event_df df start_date end_date) in Hs.
  assert (Hin : forall row,
             In row (EventWindow.event_df df start_date end_date) <->
             In row df /\ (start_date <= fst row <= end_date)%Z).
  { intros row. unfold EventWindow.event_df.
    rewrite filter_In, andb_true_iff, !Z.leb_le. tauto. }
  set (e := EventWindow.event_df df start_date end_date) in *.
  destruct e as [|[t v] e'] eqn:Ee; [discriminate|].
  cbn [iloc nth_error bind].
  rewrite (iloc_back_spec (map snd ((t, v) :: e')) 0) by (cbn; lia).
  cbn [bind].
  set (n := (length ((t, v) :: e') - 1)%nat).
  assert (Hn : (n < length ((t, v) :: e'))%nat) by (subst n; cbn; lia).
  destruct (nth_error ((t, v) :: e') n) as [lst|] eqn:El;
    [|apply nth_error_None in El; lia].
  rewrite length_map. fold n.
  rewrite (nth_error_nth _ _ 0 (map_nth_error snd _ _ El)).
  intros H. injection H as <- <- _ _.
  exists (t, v), lst.
  pose proof (nth_error_In _ _ El) as Hlin.
  assert (Hfin : In (t, v) ((t, v) :: e')) by now left.
  apply Hin in Hlin as [Hl1 Hl2]. apply Hin in Hfin as [Hf1 Hf2].
  repeat split; auto; try lia.
  - assert (Hr : In row ((t, v) :: e')) by (apply Hin; auto).
    apply In_nth_error in Hr as (k & Hk).
    destruct k as [|k]; [cbn in Hk; injection Hk as <-; cbn; lia|].
    apply (StronglySorted_ends Hs (i := 0) (j := S k)); [lia|reflexivity|exact Hk].
  - assert (Hr : In row ((t, v) :: e')) by (apply Hin; auto).
    apply In_nth_error in Hr as (k & Hk).
    assert (Hkn : (k < length ((t, v) :: e'))%nat)
      by (apply nth_error_Some; congruence).
    destruct (Nat.eq_dec k n) as [->|Hne].
    + rewrite El in Hk. injection Hk as <-. lia.
    + apply (StronglySorted_ends Hs (i := k) (j := n));
        [subst n; cbn in *; lia|exact Hk|exact El].
Qed.

Lemma period_change_first_and_last_witness :
  exists first last : Z * Q,
    In first [(1%Z, 10); (2%Z, 20); (3%Z, 30); (4%Z, 25)] /\
    In last [(1%Z, 10); (2%Z, 20); (3%Z, 30); (4%Z, 25)] /\
    snd first = 20 /\ snd last = 30 /\
    (2 <= fst first)%Z /\ (fst last <= 3)%Z /\
    forall row, In row [(1%Z, 10); (2%Z, 20); (3%Z, 30); (4%Z, 25)] ->
                (2 <= fst row <= 3)%Z ->
                (fst first <= fst row <= fst last)%Z.
Proof.
  apply (@period_change_first_and_last
           [(1%Z, 10); (2%Z, 20); (3%Z, 30); (4%Z, 25)] 2 3
           20 30 (30 - 20) ((30 - 20) / 20 * 100)).
  - repeat constructor; cbn; lia.
  - reflexivity.
Defined.

(** ** The forecast table *)

(** X16: the next-day price cannot be read exactly when no row of the
    prediction is dated from [start_dt] to one day after the current
    time. *)
Theorem next_day_price_needs_a_row (predicted : list Row) (now : Z) :
  next_day_price predicted now = Err IndexError <->
  Forall (fun r => ~ (start_dt <= ds r <= now + one_day)%Z) predicted.
Proof.
  unfold next_day_price.
  assert (Hnil : forecast predicted now = [] <->
                 Forall (fun r => ~ (start_dt <= ds r <= now + one_day)%Z)
                        predicted).
  { unfold forecast. etransitivity; [apply filter_nil_iff|].
    split; intros H; (eapply Forall_impl; [|exact H]); cbn; intros r;
      apply in_window_false. }
  rewrite <- Hnil.
  destruct (forecast predicted now) as [|r l] eqn:E.
  - split; reflexivity.
  - destruct (rev (r :: l)) as [|r' l'] eqn:Er.
    + apply (f_equal (@length Row)) in Er. rewrite length_rev in Er.
      discriminate.
    + split; discriminate.
Qed.

Import ForecastTable.

Lemma insert_row_In (row r : Z * Q) (rows : list (Z * Q)) :
  In r (insert_row row rows) <-> r = row \/ In r rows.
Proof.
  induction rows as [|x rows IH]; cbn.
  - intuition congruence.
  - destruct (fst row <=? fst x)%Z; cbn; [intuition congruence|].
    rewrite IH. intuition congruence.
Qed.

Lemma sort_index_In (r : Z * Q) (rows : list (Z * Q)) :
  In r (sort_index rows) <-> In r rows.
Proof.
  induction rows as [|x rows IH]; cbn; [tauto|].
  rewrite insert_row_In, IH. intuition congruence.
Qed.

Lemma insert_row_length (row : Z * Q) (rows : list (Z * Q)) :
  length (insert_row row rows) = S (length rows).
Proof.
  induction rows as [|x rows IH]; cbn; [reflexivity|].
  destruct (fst row <=? fst x)%Z; cbn; congruence.
Qed.

Lemma sort_index_length (rows : list (Z * Q)) :
  length (sort_index rows) = length rows.
Proof.
  induction rows as [|x rows IH]; [reflexivity|].
  change (sort_index (x :: rows)) with (insert_row x (sort_index rows)).
  rewrite insert_row_length, IH. reflexivity.
Qed.

Lemma filter_all (A : Type) (f : A -> bool) (l : list A) :
  (forall x, In x l -> f x = true) -> filter f l = l.
Proof.
  induction l as [|x l IH]; cbn; intros H; [reflexivity|].
  rewrite (H x) by auto. f_equal. apply IH. auto.
Qed.

(** X17: for a request of at least one day, the slice up to the requested day
    removes nothing: the table on display is the last [days] rows, by
    date, of the forecast table, so it has at most [days] rows, as many
    as the forecast table has if that has fewer, and none of them is
    dated after one day from the current time. *)
Theorem df_to_display_last_rows (predicted : list Row) (now : Z) (days : nat) :
  (1 <= days)%nat ->
  df_to_display predicted now days
  = tail (sort_index (map (fun r => (ds r, yhat r)) (forecast predicted now)))
         days /\
  length (df_to_display predicted now days)
  = Nat.min days (length (forecast predicted now)) /\
  Forall (fun row => (start_dt <= fst row <= now + one_day)%Z)
         (df_to_display predicted now days).
Proof.
  intros Hdays.
  set (rows := map (fun r => (ds r, yhat r)) (forecast predicted now)).
  assert (Hrows : forall row, In row (sort_index rows) ->
                              (start_dt <= fst row <= now + one_day)%Z).
  { intros row Hin. apply (proj1 (sort_index_In _ _)) in Hin. subst rows.
    apply in_map_iff in Hin as (r & <- & Hr). cbn.
    unfold forecast in Hr. apply filter_In in Hr as [_ Hr].
    apply andb_true_iff in Hr as [H1 H2].
    apply Z.leb_le in H1, H2. lia. }
  assert (Hslice : slice_to_day (sort_index rows)
                     (day_of (now + Z.of_nat days * one_day))
                   = sort_index rows).
  { unfold slice_to_day. apply filter_all. intros row Hin.
    apply Hrows in Hin. apply Z.leb_le. unfold day_of.
    apply Z.div_le_mono; [reflexivity|].
    unfold one_day in *. nia. }
  assert (Heq : df_to_display predicted now days = tail (sort_index rows) days).
  { unfold df_to_display. fold rows. now rewrite Hslice. }
  split; [exact Heq|]. rewrite Heq. split.
  - unfold tail. rewrite length_skipn, sort_index_length.
    subst rows. rewrite length_map. lia.
  - unfold tail. apply Forall_forall. intros row Hin.
    apply Hrows.
    assert (H : In row (firstn (length (sort_index rows) - days)
                               (sort_index rows)
                        ++ skipn (length (sort_index rows) - days)
                                 (sort_index rows)))
      by (apply in_or_app; now right).
    now rewrite firstn_skipn in H.
Qed.

Lemma df_to_display_last_rows_witness :
  df_to_display crossed_prediction start_dt 7
  = tail (sort_index (map (fun r => (ds r, yhat r))
                          (forecast crossed_prediction start_dt))) 7 /\
  length (df_to_display crossed_prediction start_dt 7)
  = Nat.min 7 (length (forecast crossed_prediction start_dt)) /\
  Forall (fun row => (start_dt <= fst row <= start_dt + one_day)%Z)
         (df_to_display crossed_prediction start_dt 7).
Proof. apply df_to_display_last_rows. lia. Defined.

(** ** The events shown on the price chart *)

Lemma nth_length_last (A : Type) (x d : A) (l : list A) :
  nth (length l) (x :: l) d = last (x :: l) d.
Proof.
  revert x. induction l as [|y l IH]; intros x; [reflexivity|].
  cbn [length].
  change (nth (S (length l)) (x :: y :: l) d) with (nth (length l) (y :: l) d).
  rewrite IH. reflexivity.
Qed.

(** X18: on the dates of a frame sorted by date, an event is drawn exactly
    when its date lies between the first and the last date; the
    membership test adds nothing.  Without any row the test raises. *)
Theorem event_in_range_sorted (index : list Z) (event_date : Z) :
  StronglySorted Z.le index ->
  match index with
  | [] => Events.event_in_range index event_date = Err IndexError
  | first :: _ =>
      exists shown,
        Events.event_in_range index event_date = Ok shown /\
        (shown = true <->
         (first <= event_date <= last index first)%Z)
  end.
Proof.
  intros Hs. destruct index as [|first rest]; [reflexivity|].
  assert (Hback : Metrics.iloc_back (first :: rest) 1
                  = Ok (last (first :: rest) first)).
  { rewrite (iloc_back_spec (first :: rest) first) by (cbn; lia).
    f_equal. cbn [length].
    replace (S (length rest) - 1)%nat with (length rest) by lia.
    apply nth_length_last. }
  assert (Hbounds : forall t, In t (first :: rest) ->
                              (first <= t <= last (first :: rest) first)%Z).
  { intros t Hin. apply In_nth_error in Hin as (k & Hk).
    assert (Hlen : (k < length (first :: rest))%nat)
      by (apply nth_error_Some; congruence).
    assert (Hl : nth_error (first :: rest) (length rest)
                 = Some (last (first :: rest) first)).
    { rewrite (nth_error_nth' _ first) by (cbn; lia). f_equal.
      apply nth_length_last. }
    split.
    - destruct k as [|k]; [cbn in Hk; injection Hk as <-; lia|].
      apply (@StronglySorted_ends _ Z.le _ 0%nat (S k) _ _ Hs);
        [lia|reflexivity|exact Hk].
    - destruct (Nat.eq_dec k (length rest)) as [->|Hne].
      + rewrite Hl in Hk. injection Hk as Hk. rewrite <- Hk.
        apply Z.le_refl.
      + apply (@StronglySorted_ends _ Z.le _ k (length rest) _ _ Hs);
          [cbn in Hlen; lia|exact Hk|exact Hl]. }
  unfold Events.event_in_range.
  destruct (existsb (Z.eqb event_date) (first :: rest)) eqn:Ein.
  - exists true. split; [reflexivity|]. split; [intros _|reflexivity].
    apply existsb_exists in Ein as (t & Hin & Ht).
    apply Z.eqb_eq in Ht. subst t. now apply Hbounds.
  - cbn [nth_error bind].
    destruct (Z.leb_spec first event_date) as [Hle|Hlt].
    + rewrite Hback. cbn [bind]. eexists. split; [reflexivity|].
      rewrite Z.leb_le. lia.
    + exists false. split; [reflexivity|]. split; [discriminate|lia].
Qed.

Lemma event_in_range_sorted_witness :
  exists shown,
    Events.event_in_range [1; 3; 7]%Z 5 = Ok shown /\
    (shown = true <-> (1 <= 5 <= last [1; 3; 7]%Z 1)%Z).
Proof.
  apply (@event_in_range_sorted [1; 3; 7]%Z 5).
  repeat constructor; lia.
Defined.

(** * The scan in binary64 *)

Module FloatSegmenterFacts.
Import PrimFloat FloatSegmenter FloatSegmenterSpec.

#[local] Arguments bull_test : simpl never.
#[local] Arguments bear_test : simpl never.

Lemma f64_iloc_in_range (s : Series) (i : nat) :
  (i < length s)%nat -> exists v, iloc s i = Ok v.
Proof.
  intros Hi. unfold iloc.
  destruct (nth_error s i) as [[t v]|] eqn:E; [eauto|].
  apply nth_error_None in E. lia.
Qed.

Lemma f64_index_at_in_range (s : Series) (i : nat) :
  (i < length s)%nat -> exists t, index_at s i = Ok t.
Proof.
  intros Hi. unfold index_at.
  destruct (nth_error s i) as [[t v]|] eqn:E; [eauto|].
  apply nth_error_None in E. lia.
Qed.

Lemma f64_index_last_nonempty (s : Series) :
  s <> [] -> exists t, index_last s = Ok t.
Proof.
  destruct s as [|x s]; [congruence|]. intros _.
  unfold index_last. apply f64_index_at_in_range. cbn. lia.
Qed.

(** A reversal that was recorded stays recorded as long as the pending
    market of the other kind stays open or is appended to its list. *)
Lemma bull_reversed_mono (s : Series) (th : float) (st st' : State)
    (t : PhaseTuple) :
  (forall r, In r (bear_markets st) -> In r (bear_markets st')) ->
  (in_bear st = true ->
   (in_bear st' = true /\ start_idx st' = start_idx st /\
    peak st' = peak st) \/
   (exists r, In r (bear_markets st') /\
              t_start_idx r = start_idx st /\ t_first r = peak st)) ->
  bull_reversed s th st t -> bull_reversed s th st' t.
Proof.
  intros Hincl Hpend (v & Hv & Htest & Hnext).
  exists v. split; [exact Hv|]. split; [exact Htest|].
  destruct Hnext as [(r & Hr & Hs & Hf)|(Hm & Hs & Hp)].
  - left. exists r. auto.
  - destruct (Hpend Hm) as [(Hm' & Hs' & Hp')|(r & Hr & Hrs & Hrf)].
    + right. repeat split; congruence.
    + left. exists r. repeat split; congruence.
Qed.

Lemma bear_reversed_mono (s : Series) (th : float) (st st' : State)
    (t : PhaseTuple) :
  (forall b, In b (bull_markets st) -> In b (bull_markets st')) ->
  (in_bull st = true ->
   (in_bull st' = true /\ start_idx st' = start_idx st /\
    trough st' = trough st) \/
   (exists b, In b (bull_markets st') /\
              t_start_idx b = start_idx st /\ t_first b = trough st)) ->
  bear_reversed s th st t -> bear_reversed s th st' t.
Proof.
  intros Hincl Hpend (v & Hv & Htest & Hnext).
  exists v. split; [exact Hv|]. split; [exact Htest|].
  destruct Hnext as [(r & Hr & Hs & Hf)|(Hm & Hs & Hp)].
  - left. exists r. auto.
  - destruct (Hpend Hm) as [(Hm' & Hs' & Hp')|(r & Hr & Hrs & Hrf)].
    + right. repeat split; congruence.
    + left. exists r. repeat split; congruence.
Qed.

(** The update of the extrema keeps the invariant. *)
Lemma update_extrema_preserves (s : Series) (th v0 v : float) (n : nat)
    (st : State) :
  Inv s th v0 n st -> Inv s th v0 n (update_extrema v st).
Proof.
  intros [Hex Hst Hno Hq Hb Hr].
  destruct st as [bm rm ib ir si pk tr]. unfold update_extrema. cbn in *.
  destruct ib.
  - specialize (Hex eq_refl). subst ir. cbn [andb].
    destruct (pk <? v)%float; [|now constructor].
    constructor; cbn; auto; try (intros ? ?; discriminate);
      (eapply Forall_impl; [|eassumption]); intros t;
      first [apply bull_reversed_mono|apply bear_reversed_mono]; cbn; auto;
      discriminate.
  - cbn [andb]. destruct ir; cbn [andb]; [|now constructor].
    destruct (v <? tr)%float; [|now constructor].
    constructor; cbn; auto; try (intros ? ?; discriminate);
      (eapply Forall_impl; [|eassumption]); intros t;
      first [apply bull_reversed_mono|apply bear_reversed_mono]; cbn; auto;
      discriminate.
Qed.

(** With a market open, consuming a point without a confirmation keeps the
    invariant. *)
Lemma Inv_next_in_market (s : Series) (th v0 : float) (n : nat) (st : State) :
  in_bull st = true \/ in_bear st = true ->
  Inv s th v0 n st -> Inv s th v0 (S n) st.
Proof.
  intros Hm [Hex Hst Hno Hq Hb Hr]. constructor; auto.
  - intros H. specialize (Hst H). lia.
  - split.
    + intros [E1 E2]. destruct Hm; congruence.
    + intros H. apply Hq. intros i v Hi. apply H. lia.
Qed.

(** The confirmation keeps the invariant, and none of its accesses is out
    of range. *)
Lemma confirm_preserves (s : Series) (th v0 v : float) (i : nat)
    (st : State) :
  (1 <= i < length s)%nat -> iloc s i = Ok v ->
  Inv s th v0 i st ->
  exists stc, confirm s th i v st = Ok stc /\ Inv s th v0 (S i) stc.
Proof.
  intros Hi Hv Hinv.
  pose proof Hinv as [Hex Hst Hno Hq Hb Hr].
  destruct st as [bm rm ib ir si pk tr].
  unfold confirm, close_bear, close_bull. cbn in *.
  assert (Hloud : ib = true \/ ir = true ->
                  ~ (forall j w, (1 <= j < S i)%nat -> iloc s j = Ok w ->
                                 bull_test th v0 w = false /\
                                 bear_test th v0 w = false)).
  { intros Hm H.
    assert (Hn : ib = false /\ ir = false).
    { apply Hq. intros j w Hj. apply H. lia. }
    destruct Hm, Hn; congruence. }
  destruct ib; [|destruct ir]; cbn [negb andb].
  - (* a bull market is open *)
    specialize (Hex eq_refl). subst ir. cbn [negb andb].
    destruct (bear_test th pk v) eqn:Et.
    + destruct (@f64_index_at_in_range s si) as (sd & ->);
        [specialize (Hst (or_introl eq_refl)); lia|].
      destruct (@f64_index_at_in_range s (i - 1)) as (ed & ->); [lia|].
      cbn [bind bull_markets bear_markets in_bull in_bear peak trough].
      eexists. split; [reflexivity|].
      constructor; cbn.
      * discriminate.
      * intros _. lia.
      * intros _ ?. discriminate.
      * split; [intros [_ ?]; discriminate|].
        intros H. exfalso. apply (Hloud (or_introl eq_refl)). exact H.
      * apply Forall_app. split.
        -- eapply Forall_impl; [|exact Hb]. intros t.
           apply bull_reversed_mono; cbn; auto. discriminate.
        -- constructor; [|constructor].
           exists v. cbn. replace (S (i - 1)) with i by lia.
           split; [exact Hv|]. split; [exact Et|]. right. auto.
      * eapply Forall_impl; [|exact Hr]. intros t.
        apply bear_reversed_mono; cbn.
        -- intros b Hin. apply in_or_app. now left.
        -- intros _. right. eexists. split.
           ++ apply in_or_app. right. left. reflexivity.
           ++ cbn. auto.
    + eexists. split; [reflexivity|].
      apply Inv_next_in_market; [cbn; auto|exact Hinv].
  - (* a bear market is open *)
    destruct (bull_test th tr v) eqn:Et.
    + destruct (@f64_index_at_in_range s si) as (sd & ->);
        [specialize (Hst (or_intror eq_refl)); lia|].
      destruct (@f64_index_at_in_range s (i - 1)) as (ed & ->); [lia|].
      cbn [bind bull_markets bear_markets in_bull in_bear peak trough].
      eexists. split; [reflexivity|].
      constructor; cbn.
      * reflexivity.
      * intros _. lia.
      * intros ?. discriminate.
      * split; [intros [? _]; discriminate|].
        intros H. exfalso. apply (Hloud (or_intror eq_refl)). exact H.
      * eapply Forall_impl; [|exact Hb]. intros t.
        apply bull_reversed_mono; cbn.
        -- intros r Hin. apply in_or_app. now left.
        -- intros _. right. eexists. split.
           ++ apply in_or_app. right. left. reflexivity.
           ++ cbn. auto.
      * apply Forall_app. split.
        -- eapply Forall_impl; [|exact Hr]. intros t.
           apply bear_reversed_mono; cbn; auto. discriminate.
        -- constructor; [|constructor].
           exists v. cbn. replace (S (i - 1)) with i by lia.
           split; [exact Hv|]. split; [exact Et|]. right. auto.
    + eexists. split; [reflexivity|].
      apply Inv_next_in_market; [cbn; auto|exact Hinv].
  - (* no market confirmed yet *)
    destruct (Hno eq_refl eq_refl) as (-> & -> & -> & ->).
    assert (Hsofar : forall j w, (1 <= j < i)%nat -> iloc s j = Ok w ->
                                 bull_test th v0 w = false /\
                                 bear_test th v0 w = false)
      by (apply Hq; auto).
    destruct (bull_test th v0 v) eqn:Et1.
    + cbn [bind bull_markets bear_markets in_bull in_bear peak trough].
      eexists. split; [reflexivity|].
      constructor; cbn; auto;
        try (intros; lia); try (intros; discriminate).
      split; [intros [? _]; discriminate|].
      intros H. destruct (H i v ltac:(lia) Hv). congruence.
    + destruct (bear_test th v0 v) eqn:Et2.
      * cbn [bind bull_markets bear_markets in_bull in_bear peak trough].
        eexists. split; [reflexivity|].
        constructor; cbn; auto;
          try (intros; lia); try (intros; discriminate).
        split; [intros [_ ?]; discriminate|].
        intros H. destruct (H i v ltac:(lia) Hv). congruence.
      * eexists. split; [reflexivity|].
        constructor; cbn; auto;
          try (intros [?|?]; discriminate).
        split; [|auto]. intros _ j w Hj Hw.
        destruct (Nat.eq_dec j i) as [->|Hne].
        -- rewrite Hv in Hw. injection Hw as <-. auto.
        -- apply (Hsofar j w); [lia|exact Hw].
Qed.

Lemma f64_loop_body_preserves (s : Series) (th v0 : float) (i : nat)
    (st : State) :
  (1 <= i < length s)%nat -> Inv s th v0 i st ->
  exists st', loop_body s th i st = Ok st' /\ Inv s th v0 (S i) st'.
Proof.
  intros Hi Hinv. unfold loop_body.
  destruct (@f64_iloc_in_range s i) as (v & Hv); [lia|]. rewrite Hv. cbn [bind].
  destruct (confirm_preserves Hi Hv Hinv) as (stc & -> & Hstc). cbn [bind].
  eexists. split; [reflexivity|]. now apply update_extrema_preserves.
Qed.

Lemma f64_for_each_invariant (I : nat -> State -> Prop)
    (body : nat -> State -> result State) (n a : nat) (st : State) :
  I a st ->
  (forall i st0, (a <= i < a + n)%nat -> I i st0 ->
                 exists st', body i st0 = Ok st' /\ I (S i) st') ->
  exists st', for_each body (seq a n) st = Ok st' /\ I (a + n)%nat st'.
Proof.
  revert a st. induction n as [|n IH]; intros a st Ha Hstep; cbn.
  - exists st. rewrite Nat.add_0_r. auto.
  - destruct (Hstep a st ltac:(lia) Ha) as (st1 & -> & H1). cbn.
    destruct (IH (S a) st1 H1) as (st' & Hrun & H').
    { intros i st0 Hi. apply Hstep. lia. }
    exists st'. split; [exact Hrun|].
    now rewrite Nat.add_succ_r.
Qed.

(** The scan of a non-empty series ends, in a state that satisfies the
    invariant for the whole series. *)
Lemma f64_scan_spec (t0 : Z) (v0 : float) (rest : Series) (th : float) :
  exists st, scan ((t0, v0) :: rest) th = Ok st /\
             Inv ((t0, v0) :: rest) th v0 (length ((t0, v0) :: rest)) st.
Proof.
  unfold scan. cbn [iloc nth_error bind].
  destruct (@f64_for_each_invariant (Inv ((t0, v0) :: rest) th v0)
              (loop_body ((t0, v0) :: rest) th)
              (length ((t0, v0) :: rest) - 1) 1
              (mkState [] [] false false 0 v0 v0))
    as (st & Hrun & Hinv).
  - constructor; cbn; auto.
    + intros [?|?]; discriminate.
    + split; [|auto]. intros _ i v Hi. lia.
  - intros i st0 Hi. apply f64_loop_body_preserves. cbn in *. lia.
  - exists st. split; [exact Hrun|].
    replace (1 + (length ((t0, v0) :: rest) - 1))%nat
      with (length ((t0, v0) :: rest)) in Hinv by (cbn; lia).
    exact Hinv.
Qed.

(** The two outputs, from the final state of the scan. *)
Lemma handle_last_spec (s : Series) (th v0 : float) (st : State) :
  s <> [] -> Inv s th v0 (length s) st ->
  exists sd ed,
    handle_last s st
    = Ok (if in_bull st
          then (bull_markets st ++
                  [bull_tuple (start_idx st) (length s - 1) sd ed
                              (peak st) (trough st)],
                bear_markets st)
          else if in_bear st
               then (bull_markets st,
                     bear_markets st ++
                       [bear_tuple (start_idx st) (length s - 1) sd ed
                                   (peak st) (trough st)])
               else (bull_markets st, bear_markets st)).
Proof.
  intros Hne [_ Hst _ _ _ _]. unfold handle_last.
  destruct (f64_index_last_nonempty Hne) as (ed & Hed).
  destruct (in_bull st) eqn:Eb; [|destruct (in_bear st) eqn:Er].
  - destruct (@f64_index_at_in_range s (start_idx st)) as (sd & Hsd);
      [specialize (Hst (or_introl eq_refl)); lia|].
    exists sd, ed. now rewrite Hsd, Hed.
  - destruct (@f64_index_at_in_range s (start_idx st)) as (sd & Hsd);
      [specialize (Hst (or_intror eq_refl)); lia|].
    exists sd, ed. now rewrite Hsd, Hed.
  - exists 0%Z, ed. reflexivity.
Qed.

(** X5: on a non-empty series no market at all is returned exactly when
    no value after the first passes either confirmation test against the
    first value, the tests being evaluated in binary64 as the code
    evaluates them. *)
Theorem no_market_iff_no_test_passes (t0 : Z) (v0 : float) (rest : Series)
    (th : float) :
  identify_market_phases ((t0, v0) :: rest) th = Ok ([], []) <->
  Forall (fun pt => (v0 * (1 + th) <=? snd pt)%float = false /\
                    (snd pt <=? v0 * (1 - th))%float = false) rest.
Proof.
  destruct (f64_scan_spec t0 v0 rest th) as (st & Hscan & Hinv).
  unfold identify_market_phases. rewrite Hscan. cbn [bind].
  destruct (@handle_last_spec ((t0, v0) :: rest) th v0 st
              ltac:(discriminate) Hinv) as (sd & ed & ->).
  pose proof Hinv as [_ _ Hno Hq _ _].
  assert (Hband : (forall i v, (1 <= i < length ((t0, v0) :: rest))%nat ->
                     iloc ((t0, v0) :: rest) i = Ok v ->
                     bull_test th v0 v = false /\
                     bear_test th v0 v = false) <->
                  Forall (fun pt =>
                            (v0 * (1 + th) <=? snd pt)%float = false /\
                            (snd pt <=? v0 * (1 - th))%float = false) rest).
  { rewrite Forall_forall. split.
    - intros H [t v] Hin. apply In_nth_error in Hin as (k & Hk).
      apply (H (S k) v).
      + assert (k < length rest)%nat
          by (apply nth_error_Some; congruence).
        cbn. lia.
      + unfold iloc. cbn. now rewrite Hk.
    - intros H [|k] v Hk Hv; [lia|].
      unfold iloc in Hv. cbn in Hv.
      destruct (nth_error rest k) as [[t w]|] eqn:E; [|discriminate].
      injection Hv as <-. apply (H (t, w)).
      eapply nth_error_In. exact E. }
  rewrite <- Hband, <- Hq. clear Hband Hq.
  destruct (in_bull st); [|destruct (in_bear st)].
  - split; [|intros [? _]; discriminate].
    intros H. injection H as H _.
    destruct (bull_markets st); discriminate.
  - split; [|intros [_ ?]; discriminate].
    intros H. injection H as _ H.
    destruct (bear_markets st); discriminate.
  - destruct (Hno eq_refl eq_refl) as (-> & -> & _). tauto.
Qed.

(** X4: every bull market that ends before the series does is followed by
    a bear market that starts at the next position, at a value that the
    bear test accepts against the peak of the bull market; and every bear
    market that ends before the series does is followed by a bull market
    that starts at the next position, at a value that the bull test
    accepts against the trough of the bear market.  The tests are those
    of the code, evaluated in binary64. *)
Theorem markets_end_on_reversal (s : Series) (th : float)
    (bulls bears : list PhaseTuple) :
  identify_market_phases s th = Ok (bulls, bears) ->
  Forall (fun t =>
            (S (t_end_idx t) < length s)%nat ->
            exists v r,
              iloc s (S (t_end_idx t)) = Ok v /\
              (v <=? t_second t * (1 - th))%float = true /\
              In r bears /\
              t_start_idx r = S (t_end_idx t) /\ t_first r = v) bulls /\
  Forall (fun t =>
            (S (t_end_idx t) < length s)%nat ->
            exists v b,
              iloc s (S (t_end_idx t)) = Ok v /\
              (t_second t * (1 + th) <=? v)%float = true /\
              In b bulls /\
              t_start_idx b = S (t_end_idx t) /\ t_first b = v) bears.
Proof.
  destruct s as [|[t0 v0] rest]; [discriminate|].
  destruct (f64_scan_spec t0 v0 rest th) as (st & Hscan & Hinv).
  unfold identify_market_phases. rewrite Hscan. cbn [bind].
  destruct (@handle_last_spec ((t0, v0) :: rest) th v0 st
              ltac:(discriminate) Hinv) as (sd & ed & ->).
  pose proof Hinv as [Hex _ _ _ Hb Hr].
  set (s := (t0, v0) :: rest) in *.
  assert (Hlen : (S (length s - 1) < length s)%nat -> False)
    by (subst s; cbn; lia).
  intros H.
  destruct (in_bull st) eqn:Eb; [|destruct (in_bear st) eqn:Er];
    injection H as <- <-; split.
  - apply Forall_app. split.
    + eapply Forall_impl; [|exact Hb].
      intros t (v & Hv & Ht & [(r & Hin & Hs & Hf)|(Hm & _)]) _.
      * exists v, r. auto.
      * rewrite (Hex eq_refl) in Hm. discriminate.
    + constructor; [|constructor]. cbn. intros Hlt. now apply Hlen in Hlt.
  - eapply Forall_impl; [|exact Hr].
    intros t (v & Hv & Ht & [(b & Hin & Hs & Hf)|(_ & Hs & Hf)]) _.
    + exists v, b. repeat split; auto. apply in_or_app. now left.
    + exists v. eexists. repeat split; [exact Hv|exact Ht| | |].
      * apply in_or_app. right. left. reflexivity.
      * cbn. exact Hs.
      * cbn. exact Hf.
  - eapply Forall_impl; [|exact Hb].
    intros t (v & Hv & Ht & [(r & Hin & Hs & Hf)|(_ & Hs & Hf)]) _.
    + exists v, r. repeat split; auto. apply in_or_app. now left.
    + exists v. eexists. repeat split; [exact Hv|exact Ht| | |].
      * apply in_or_app. right. left. reflexivity.
      * cbn. exact Hs.
      * cbn. exact Hf.
  - apply Forall_app. split.
    + eapply Forall_impl; [|exact Hr].
      intros t (v & Hv & Ht & [(b & Hin & Hs & Hf)|(Hm & _)]) _.
      * exists v, b. auto.
      * congruence.
    + constructor; [|constructor]. cbn. intros Hlt. now apply Hlen in Hlt.
  - eapply Forall_impl; [|exact Hb].
    intros t (v & Hv & Ht & [(r & Hin & Hs & Hf)|(Hm & _)]) _.
    + exists v, r. auto.
    + congruence.
  - eapply Forall_impl; [|exact Hr].
    intros t (v & Hv & Ht & [(b & Hin & Hs & Hf)|(Hm & _)]) _.
    + exists v, b. auto.
    + congruence.
Qed.

Lemma markets_end_on_reversal_witness :
  Forall (fun t =>
            (S (t_end_idx t) < length boundary_series)%nat ->
            exists v r,
              iloc boundary_series (S (t_end_idx t)) = Ok v /\
              (v <=? t_second t * (1 - threshold_02))%float = true /\
              In r (snd boundary_markets) /\
              t_start_idx r = S (t_end_idx t) /\ t_first r = v)
         (fst boundary_markets) /\
  Forall (fun t =>
            (S (t_end_idx t) < length boundary_series)%nat ->
            exists v b,
              iloc boundary_series (S (t_end_idx t)) = Ok v /\
              (t_second t * (1 + threshold_02) <=? v)%float = true /\
              In b (fst boundary_markets) /\
              t_start_idx b = S (t_end_idx t) /\ t_first b = v)
         (snd boundary_markets).
Proof.
  apply (@markets_end_on_reversal boundary_series threshold_02).
  vm_compute. reflexivity.
Defined.

(** At the boundary the scan decides as the code does: 63 is not at or
    below [90 * (1 - 0.3)], which is [62.99999999999999] in binary64, and
    [3 * (1 + 0.2)], which is [3.5999999999999996], confirms a bull
    market after a trough of 3. *)
Example boundary_decisions :
  identify_market_phases [(0%Z, 90); (1%Z, 63)]%float threshold_03
  = Ok ([], []) /\
  map (fun t => (t_start_idx t, t_end_idx t)) (fst boundary_markets)
  = [(2, 2)]%nat /\
  map (fun t => (t_start_idx t, t_end_idx t)) (snd boundary_markets)
  = [(1, 1)]%nat.
Proof. repeat split; vm_compute; reflexivity. Qed.

End FloatSegmenterFacts.
